(** * rwlock: the Redis read-write lock client (client/redis.go, rwinit.go)

    A shallow embedding of the Go package [client] and of [rwlock.Init].
    The package keeps three package-level variables ([Redis], [opts],
    [shaHashID]) and talks to a Redis server; both are threaded explicitly
    through a small state monad that also records what was sent to the
    server and when the caller slept.  The [for { ... }] loops of the four
    lock operations are unrolled by a fuel argument. *)

From Stdlib Require Import ZArith List String Ascii Bool Lia DecimalString.
Import ListNotations.

Open Scope string_scope.
Open Scope Z_scope.

(** ** Go values used by the package *)

(** A Go [error], identified with the text its [Error()] method returns. *)
Definition error := string.

Definition errors_New (msg : string) : error := msg.

(** [len] of a Go string. *)
Definition len (s : string) : Z := Z.of_nat (String.length s).

(** [strconv.Itoa] on an [int] (64 bits wide on the platforms of go-redis). *)
Definition Itoa (n : Z) : string := NilZero.string_of_int (Z.to_int n).

(** Two's complement wrap-around of [int64] arithmetic. *)
Definition wrap64 (z : Z) : Z := (z + 2 ^ 63) mod 2 ^ 64 - 2 ^ 63.

(** [time.Millisecond], in nanoseconds. *)
Definition Millisecond : Z := 1000000.

(** The go-redis option structs, reduced to their addressing fields. *)
Record Options := { Addr : string }.
Record FailoverOptions := { MasterName : string; SentinelAddrs : list string }.
Record ClusterOptions := { Addrs : list string }.

(** The [interface{}] handed to [DoInit]: a pointer to one of the three
    option structs, the nil interface, or a value of any other dynamic
    type (named by that type). *)
Inductive optObj : Type :=
| OptionsPtr (opt : Options)
| FailoverOptionsPtr (opt : FailoverOptions)
| ClusterOptionsPtr (opt : ClusterOptions)
| NilValue
| OtherValue (dynamic_type : string).

(** [redis.UniversalClient]: the three clients the package constructs. *)
Inductive UniversalClient : Type :=
| NewClient (opt : Options)
| NewFailoverClient (opt : FailoverOptions)
| NewClusterClient (opt : ClusterOptions).

(** What [Cmd.Result()] yields as its [interface{}] value. *)
Inductive reply : Type :=
| ReplyNil
| ReplyString (s : string)
| ReplyInt (n : Z).

(** responseLock *)
Record responseLock := {
  OpRet : bool;
  ErrMsg : string;
  Debug : string
}.

Definition IsError (r : responseLock) : bool :=
  if len (ErrMsg r) >? 0 then true else false.

Definition Success (r : responseLock) : bool := OpRet r.

Definition Error (r : responseLock) : string := ErrMsg r.

(** error 定义 *)
Definition NoScriptError : string := "NOSCRIPT No matching script. Please use EVAL.".
Definition EofError : string := "EOF".

(** 锁的相关指令 *)
Definition LockCmd : string := "LOCK".
Definition UnlockCmd : string := "UNLOCK".
Definition RLockCmd : string := "RLOCK".
Definition RUnlockCmd : string := "RUNLOCK".

(** ** The collaborators outside the package

    The Redis server reached through go-redis, [encoding/json], and the two
    sibling packages [lua] and [tool] are not part of [client]; the model
    is parametric in them.  [Env] is whatever state the outside world
    keeps between calls. *)
Class Store := {
  Env : Type;
  (** [c.Ping(ctx).Result()], its error only *)
  Ping : UniversalClient -> Env -> option error * Env;
  (** [c.ScriptLoad(ctx, script).Result()] *)
  ScriptLoad : UniversalClient -> string -> Env -> (string + error) * Env;
  (** [c.EvalSha(ctx, sha, keys, args).Result()] *)
  EvalSha : UniversalClient -> string -> list string -> list string ->
            Env -> (reply + error) * Env;
  (** [json.Unmarshal] into a zero [responseLock] *)
  Unmarshal : string -> responseLock + error;
  (** [lua.ScriptContent] *)
  ScriptContent : string;
  (** [tool.Rand] *)
  Rand : Z -> Z -> Env -> Z * Env
}.

(** ** Observable actions *)
Inductive event : Type :=
| EvPing (c : UniversalClient) (r : option error)
| EvScriptLoad (c : UniversalClient) (script : string) (r : string + error)
| EvEvalSha (c : UniversalClient) (sha : string) (keys args : list string)
            (r : reply + error)
| EvSleep (d : Z).

(** A Go panic: [panic(msg)] of the package itself, or a run-time error
    (nil dereference, failed type assertion). *)
Inductive panic_value : Type :=
| PanicString (msg : string)
| RuntimeError (what : string).

Inductive outcome (A : Type) : Type :=
| Done (a : A)
| Panicked (p : panic_value)
| OutOfFuel.

Arguments Done {A} a.
Arguments Panicked {A} p.
Arguments OutOfFuel {A}.

Section Client.

Context {W : Store}.

(** The package-level variables, and the world outside. *)
Record state := {
  Redis : option UniversalClient;
  opts : optObj;
  shaHashID : string;
  env : Env
}.

Record run (A : Type) := {
  out : outcome A;
  final : state;
  log : list event
}.

Arguments out {A} r.
Arguments final {A} r.
Arguments log {A} r.

Definition M (A : Type) : Type := state -> run A.

Definition ret {A} (a : A) : M A :=
  fun st => {| out := Done a; final := st; log := [] |}.

Definition bind {A B} (m : M A) (k : A -> M B) : M B :=
  fun st =>
    let r := m st in
    match out r with
    | Done a =>
        let r' := k a (final r) in
        {| out := out r'; final := final r'; log := log r ++ log r' |}
    | Panicked p => {| out := Panicked p; final := final r; log := log r |}
    | OutOfFuel => {| out := OutOfFuel; final := final r; log := log r |}
    end.

Definition panic {A} (p : panic_value) : M A :=
  fun st => {| out := Panicked p; final := st; log := [] |}.

Definition diverge {A} : M A :=
  fun st => {| out := OutOfFuel; final := st; log := [] |}.

Definition emit (e : event) : M unit :=
  fun st => {| out := Done tt; final := st; log := [e] |}.

Definition gets {A} (f : state -> A) : M A :=
  fun st => {| out := Done (f st); final := st; log := [] |}.

Definition modify (f : state -> state) : M unit :=
  fun st => {| out := Done tt; final := f st; log := [] |}.

Definition set_env (e : Env) (st : state) : state :=
  {| Redis := Redis st; opts := opts st; shaHashID := shaHashID st; env := e |}.

(** One exchange with the outside world. *)
Definition with_env {A} (f : Env -> A * Env) : M A :=
  fun st =>
    let '(a, e) := f (env st) in
    {| out := Done a; final := set_env e st; log := [] |}.

End Client.

Arguments out {W A} r.
Arguments final {W A} r.
Arguments log {W A} r.

Declare Scope go_scope.
Notation "x <- m ;; k" := (bind m (fun x => k))
  (at level 61, m at next level, right associativity) : go_scope.
Notation "' pat <- m ;; k" := (bind m (fun x => match x with pat => k end))
  (at level 61, pat pattern, m at next level, right associativity) : go_scope.
Notation "m ;;; k" := (bind m (fun _ => k))
  (at level 61, right associativity) : go_scope.
Open Scope go_scope.

Section Package.

Context {W : Store}.

(** ** Calls through the package-level client

    [Redis] is an interface variable: a method call on it before [DoInit]
    has assigned a client is a nil dereference. *)
Definition nil_dereference : panic_value :=
  RuntimeError "invalid memory address or nil pointer dereference".

Definition on_Redis {A} (call : UniversalClient -> M A) : M A :=
  c <- gets Redis ;;
  match c with
  | Some cl => call cl
  | None => panic nil_dereference
  end.

Definition Redis_Ping : M (option error) :=
  on_Redis (fun c =>
    r <- with_env (Ping c) ;;
    emit (EvPing c r) ;;;
    ret r).

Definition Redis_ScriptLoad (script : string) : M (string + error) :=
  on_Redis (fun c =>
    r <- with_env (ScriptLoad c script) ;;
    emit (EvScriptLoad c script r) ;;;
    ret r).

Definition Redis_EvalSha (sha : string) (keys args : list string)
  : M (reply + error) :=
  on_Redis (fun c =>
    r <- with_env (EvalSha c sha keys args) ;;
    emit (EvEvalSha c sha keys args r) ;;;
    ret r).

Definition set_Redis (c : UniversalClient) : M unit :=
  modify (fun st => {| Redis := Some c; opts := opts st;
                       shaHashID := shaHashID st; env := env st |}).

Definition set_opts (o : optObj) : M unit :=
  modify (fun st => {| Redis := Redis st; opts := o;
                       shaHashID := shaHashID st; env := env st |}).

(** ** client/redis.go *)

Definition GetShaHashID : M string := gets shaHashID.

Definition SetShaHasID (str : string) : M unit :=
  modify (fun st => {| Redis := Redis st; opts := opts st;
                       shaHashID := str; env := env st |}).

(** 加载 Lua脚本 *)
Definition LoadLua : M (option error) :=
  r <- Redis_ScriptLoad ScriptContent ;;
  match r with
  | inr err => ret (Some err)
  | inl hashID =>
      (* 保存hashID *)
      SetShaHasID hashID ;;;
      ret None
  end.

Definition DoInit (optObj : optObj) : M (option error) :=
  let after_switch : M (option error) :=
    r <- Redis_Ping ;;
    match r with
    | Some err => ret (Some err)
    | None =>
        set_opts optObj ;;;
        r <- LoadLua ;;
        match r with
        | Some err => ret (Some err)
        | None => ret None
        end
    end in
  match optObj with
  | OptionsPtr opt => set_Redis (NewClient opt) ;;; after_switch
  | FailoverOptionsPtr opt => set_Redis (NewFailoverClient opt) ;;; after_switch
  | ClusterOptionsPtr opt => set_Redis (NewClusterClient opt) ;;; after_switch
  | _ => ret (Some (errors_New "unsupported options"))
  end.

(** redis重启: 重试初始化一次 *)
Definition handleEofError : M (option error) :=
  o <- gets opts ;;
  DoInit o.

(** Lua script 不存在: 重新Load一下Lua *)
Definition handleNoScriptError : M (option error) := LoadLua.

(** 统一处理错误信息 *)
Definition handleError (err : option error) : M bool :=
  match err with
  | None => ret false
  | Some e =>
      if (e =? EofError)%string then
        (* 收到了Eof，redis服务重启 *)
        r <- handleEofError ;;
        match r with
        | Some _ => ret false
        | None => ret true
        end
      else if (e =? NoScriptError)%string then
        (* redis没有找到对应的Lua脚本 *)
        r <- handleNoScriptError ;;
        match r with
        | Some _ => ret false
        | None => ret true
        end
      else ret false
  end.

(** 随机 睡眠时间 *)
Definition getRandomSleepTime : M Z :=
  r <- with_env (Rand 10 20) ;;
  ret (wrap64 (r * Millisecond)).

Definition Sleep (d : Z) : M unit := emit (EvSleep d).

Definition backoff : M unit :=
  d <- getRandomSleepTime ;;
  Sleep d.

Definition not_a_string : panic_value :=
  RuntimeError "interface conversion: interface {} is not string".

(** 发送封装并发送锁指令.  The pair is the Go result, a [responseLock]
    pointer and an [error], [None] standing for nil. *)
Definition sendLock (shaHashID key uniqID lockCmd : string) (expireTime : Z)
  : M (option responseLock * option error) :=
  r <- (if (lockCmd =? LockCmd)%string then
          Redis_EvalSha shaHashID [key; lockCmd] [uniqID; Itoa expireTime]
        else if (lockCmd =? UnlockCmd)%string then
          Redis_EvalSha shaHashID [key; lockCmd] [uniqID]
        else if ((lockCmd =? RLockCmd) || (lockCmd =? RUnlockCmd))%string then
          Redis_EvalSha shaHashID [key; lockCmd] [uniqID]
        else ret (inl ReplyNil)) ;;
  match r with
  | inr err => ret (None, Some err)
  | inl (ReplyString retJson) =>
      match Unmarshal retJson with
      | inr err => ret (None, Some err)
      | inl res => ret (Some res, None)
      end
  | inl _ => panic not_a_string
  end.

(** [res != nil && res.P()] *)
Definition holds (res : option responseLock) (P : responseLock -> bool) : bool :=
  match res with
  | Some r => P r
  | None => false
  end.

(** The body of [Lock]'s [for] loop, [fuel] iterations deep. *)
Fixpoint Lock_loop (fuel : nat) (key uniqID : string) (expireTime : Z)
  : M unit :=
  match fuel with
  | O => diverge
  | S fuel' =>
      sha <- GetShaHashID ;;
      '(res, err) <- sendLock sha key uniqID LockCmd expireTime ;;
      match err with
      | Some _ =>
          handleError err ;;;
          backoff ;;;
          Lock_loop fuel' key uniqID expireTime
      | None =>
          if holds res IsError then
            match res with
            | Some r => panic (PanicString (Error r))
            | None => ret tt
            end
          else if holds res Success then ret tt
          else
            backoff ;;;
            Lock_loop fuel' key uniqID expireTime
      end
  end.

(** 写锁 *)
Definition Lock (fuel : nat) (key uniqID : string) (expireTime : Z) : M unit :=
  if len key <? 0 then panic (PanicString "lock key is nil")
  else
    let expireTime := if expireTime <=? 0 then 5 else expireTime in
    Lock_loop fuel key uniqID expireTime.

(** The body of [Unlock]'s [for] loop; [i] is the loop's counter. *)
Fixpoint Unlock_loop (fuel : nat) (i : Z) (key uniqID : string) : M unit :=
  match fuel with
  | O => diverge
  | S fuel' =>
      sha <- GetShaHashID ;;
      '(res, err) <- sendLock sha key uniqID UnlockCmd 0 ;;
      if holds res Success then ret tt
      else if holds res IsError then
        match res with
        | Some r => panic (PanicString (Error r))
        | None => ret tt
        end
      else
        match err with
        | Some _ => handleError err ;;; ret tt
        | None => ret tt
        end ;;;
        let i := i - 1 in
        if i <=? 0 then ret tt
        else
          backoff ;;;
          Unlock_loop fuel' i key uniqID
  end.

(** 写锁的释放 *)
Definition Unlock (fuel : nat) (key uniqID : string) : M unit :=
  Unlock_loop fuel 10 key uniqID.

(** The body of [RLock]'s [for] loop. *)
Fixpoint RLock_loop (fuel : nat) (key : string) : M unit :=
  match fuel with
  | O => diverge
  | S fuel' =>
      sha <- GetShaHashID ;;
      '(res, err) <- sendLock sha key EmptyString RLockCmd 0 ;;
      if holds res Success then ret tt
      else
        match err with
        | Some _ => handleError err ;;; ret tt
        | None => ret tt
        end ;;;
        backoff ;;;
        RLock_loop fuel' key
  end.

(** 读锁 *)
Definition RLock (fuel : nat) (key : string) : M unit := RLock_loop fuel key.

(** The body of [RUnlock]'s [for] loop; [i] is the loop's counter. *)
Fixpoint RUnlock_loop (fuel : nat) (i : Z) (key : string) : M unit :=
  match fuel with
  | O => diverge
  | S fuel' =>
      sha <- GetShaHashID ;;
      '(res, err) <- sendLock sha key EmptyString RUnlockCmd 0 ;;
      if holds res Success then ret tt
      else
        match err with
        | Some _ => handleError err ;;; ret tt
        | None => ret tt
        end ;;;
        let i := i - 1 in
        if i <=? 0 then ret tt
        else
          backoff ;;;
          RUnlock_loop fuel' i key
  end.

(** 释放读锁 *)
Definition RUnlock (fuel : nat) (key : string) : M unit :=
  if len key <=? 0 then panic (PanicString "runlock nil key")
  else RUnlock_loop fuel 10 key.

(** ** rwinit.go *)

(** 初始化redis客户端 *)
Definition Init (optObj : optObj) : M unit :=
  (* redis属于基础资源 如果redis的客户端初始化失败，直接panic，没得商量 *)
  r <- DoInit optObj ;;
  match r with
  | Some _ => panic (PanicString "redis client init ")
  | None => ret tt
  end.

End Package.

(** ** A scripted store

    A stand-in for the outside world in which every reply is fixed in
    advance: each call consumes the next scripted reply of its kind, and
    an exhausted script answers with a default (ping succeeds, the script
    loads under the handle [sha-1], the lock procedure reports "not now",
    [tool.Rand] yields its lower bound). *)
Module Scripted.

Record script := {
  pings : list (option error);
  loads : list (string + error);
  evals : list (reply + error);
  rands : list Z
}.

Definition quote : string := String (ascii_of_nat 34) EmptyString.

(** The JSON text the lock procedure sends for a response. *)
Definition json_of (r : responseLock) : string :=
  "{" ++ quote ++ "opRet" ++ quote ++ ":"
      ++ (if OpRet r then "true" else "false") ++ ","
      ++ quote ++ "errMsg" ++ quote ++ ":" ++ quote ++ ErrMsg r ++ quote ++ ","
      ++ quote ++ "debug" ++ quote ++ ":" ++ quote ++ Debug r ++ quote ++ "}".

Definition granted : responseLock :=
  {| OpRet := true; ErrMsg := EmptyString; Debug := EmptyString |}.
Definition busy : responseLock :=
  {| OpRet := false; ErrMsg := EmptyString; Debug := EmptyString |}.
Definition refused : responseLock :=
  {| OpRet := false; ErrMsg := "boom"; Debug := EmptyString |}.
Definition granted_with_message : responseLock :=
  {| OpRet := true; ErrMsg := "boom"; Debug := EmptyString |}.

Definition known : list responseLock :=
  [granted; busy; refused; granted_with_message].

(** [json.Unmarshal] on the texts of the known responses; anything else is
    rejected the way [encoding/json] rejects malformed input. *)
Definition decode (s : string) : responseLock + error :=
  match find (fun r => (json_of r =? s)%string) known with
  | Some r => inl r
  | None => inr "invalid character looking for beginning of value"
  end.

Definition next_ping (c : UniversalClient) (e : script)
  : option error * script :=
  match pings e with
  | [] => (None, e)
  | r :: rest =>
      (r, {| pings := rest; loads := loads e; evals := evals e; rands := rands e |})
  end.

Definition next_load (c : UniversalClient) (src : string) (e : script)
  : (string + error) * script :=
  match loads e with
  | [] => (inl "sha-1", e)
  | r :: rest =>
      (r, {| pings := pings e; loads := rest; evals := evals e; rands := rands e |})
  end.

Definition next_eval (c : UniversalClient) (sha : string)
  (keys args : list string) (e : script) : (reply + error) * script :=
  match evals e with
  | [] => (inl (ReplyString (json_of busy)), e)
  | r :: rest =>
      (r, {| pings := pings e; loads := loads e; evals := rest; rands := rands e |})
  end.

Definition next_rand (lo hi : Z) (e : script) : Z * script :=
  match rands e with
  | [] => (lo, e)
  | r :: rest =>
      (r, {| pings := pings e; loads := loads e; evals := evals e; rands := rest |})
  end.

Definition store : Store := {|
  Env := script;
  Ping := next_ping;
  ScriptLoad := next_load;
  EvalSha := next_eval;
  Unmarshal := decode;
  ScriptContent := "return cjson.encode(rwlock(KEYS, ARGV))";
  Rand := next_rand
|}.

Definition says (r : responseLock) : reply + error :=
  inl (ReplyString (json_of r)).

Definition replies (rs : list (reply + error)) : script :=
  {| pings := []; loads := []; evals := rs; rands := [] |}.

Definition single : Options := {| Addr := "127.0.0.1:6379" |}.

(** The process before [Init]. *)
Definition fresh (e : script) : @state store :=
  @Build_state store None NilValue EmptyString e.

(** The process after a successful [Init] against a single node. *)
Definition ready (e : script) : @state store :=
  @Build_state store (Some (NewClient single)) (OptionsPtr single) "sha-0" e.

(** A store that grants the next request. *)
Definition granting : @state store := ready (replies [says granted]).

(** A store whose next reply carries an error message and no grant. *)
Definition refusing : @state store := ready (replies [says refused]).

(** A store whose next reply carries both the grant and an error message. *)
Definition granting_with_message : @state store :=
  ready (replies [says granted_with_message]).

(** A store that answers ten requests in a row with an error message. *)
Definition refusing_ten_times : @state store :=
  ready (replies (repeat (says refused) 10)).

(** A store that reports the lock as held, every time. *)
Definition always_busy : @state store := ready (replies []).

(** A store whose next reply is an integer, not the JSON text. *)
Definition replying_integer : @state store := ready (replies [inl (ReplyInt 1)]).

(** A server that does not answer the ping. *)
Definition unreachable : @state store :=
  ready {| pings := [Some "dial tcp: i/o timeout"]; loads := [];
           evals := []; rands := [] |}.

(** Another single node. *)
Definition other_node : Options := {| Addr := "10.0.0.2:6379" |}.

(** A reachable server that fails to load the script. *)
Definition cannot_load : @state store :=
  fresh {| pings := []; loads := [inr "ERR script load failed"];
           evals := []; rands := [] |}.

End Scripted.

(** ** Reading a run *)
Section Observations.

Context {W : Store}.

(** An attempt is one invocation of the lock procedure. *)
Definition is_attempt (e : event) : bool :=
  match e with
  | EvEvalSha _ _ _ _ _ => true
  | _ => false
  end.

Definition attempts (l : list event) : nat :=
  List.length (filter is_attempt l).

(** The response a reply decodes to, when it does. *)
Definition decoded (r : reply + error) : option responseLock :=
  match r with
  | inl (ReplyString s) =>
      match Unmarshal s with
      | inl res => Some res
      | inr _ => None
      end
  | _ => None
  end.

(** An attempt whose decoded response has the succeeded flag set. *)
Definition succeeded (e : event) : bool :=
  match e with
  | EvEvalSha _ _ _ _ r => holds (decoded r) Success
  | _ => false
  end.

(** What [sendLock] hands back for a reply. *)
Definition interpret (r : reply + error)
  : outcome (option responseLock * option error) :=
  match r with
  | inr err => Done (None, Some err)
  | inl (ReplyString s) =>
      match Unmarshal s with
      | inr err => Done (None, Some err)
      | inl res => Done (Some res, None)
      end
  | inl _ => Panicked not_a_string
  end.

(** The positional arguments [sendLock] passes for a command. *)
Definition request_args (lockCmd uniqID : string) (expireTime : Z)
  : list string :=
  if (lockCmd =? LockCmd)%string then [uniqID; Itoa expireTime] else [uniqID].

Definition is_command (lockCmd : string) : bool :=
  ((lockCmd =? LockCmd) || (lockCmd =? UnlockCmd)
   || (lockCmd =? RLockCmd) || (lockCmd =? RUnlockCmd))%string.

(** The client [DoInit] constructs for an option value. *)
Definition dial (o : optObj) : option UniversalClient :=
  match o with
  | OptionsPtr opt => Some (NewClient opt)
  | FailoverOptionsPtr opt => Some (NewFailoverClient opt)
  | ClusterOptionsPtr opt => Some (NewClusterClient opt)
  | _ => None
  end.

(** How [handleError] reports a recovery run. *)
Definition recovered (r : run (option error)) : run bool :=
  {| out := match out r with
            | Done None => Done true
            | Done (Some _) => Done false
            | Panicked p => Panicked p
            | OutOfFuel => OutOfFuel
            end;
     final := final r;
     log := log r |}.

Definition is_sleep (e : event) : bool :=
  match e with
  | EvSleep _ => true
  | _ => false
  end.

Definition sleeps (l : list event) : nat :=
  List.length (filter is_sleep l).

(** Recovery traffic: a ping or a script load. *)
Definition is_recovery (e : event) : Prop :=
  is_attempt e = false /\ is_sleep e = false.

(** Every attempt among the events carries these keys and arguments. *)
Definition asks (keys args : list string) (e : event) : Prop :=
  match e with
  | EvEvalSha _ _ k a _ => k = keys /\ a = args
  | _ => True
  end.

(** After a failed attempt the release loops and [RLock] run the
    classifier and drop its verdict. *)
Definition recover (err : option error) : M unit :=
  match err with
  | Some _ => handleError err ;;; ret tt
  | None => ret tt
  end.

(** What a bounded release run may do when it started with [n] tries left
    and [used] of them are already spent outside [r]: it makes at most the
    remaining tries, it ends when [fuelled], and if it returns although no
    attempt succeeded it made all of them, sleeping between two attempts
    only. *)
Definition release_bound (n used : nat) (fuelled : Prop) (r : run unit)
  : Prop :=
  (attempts (log r) + used <= n)%nat /\
  (fuelled -> out r <> OutOfFuel) /\
  (out r = Done tt ->
   Forall (fun e => succeeded e = false) (log r) ->
   (attempts (log r) + used = n)%nat /\ (sleeps (log r) + 1 = n)%nat).

(** How an iteration that went through the classifier ends: with whatever
    the rest of the iteration does, whatever the classifier answered. *)
Definition after_recovery (a : run (option responseLock * option error))
  (h : run bool) (rest : run unit) : run unit :=
  {| out := out rest; final := final rest; log := log a ++ log h ++ log rest |}.

Definition is_runtime_error (p : panic_value) : Prop :=
  match p with
  | RuntimeError _ => True
  | PanicString _ => False
  end.

(** [within P Q T m]: every event of [m] satisfies [P], every panic of [m]
    satisfies [Q], and [m] exhausts its fuel only if [T]. *)
Definition within (P : event -> Prop) (Q : panic_value -> Prop) (T : Prop)
  {A} (m : M A) : Prop :=
  forall st,
    Forall P (log (m st)) /\
    match out (m st) with
    | Done _ => True
    | Panicked p => Q p
    | OutOfFuel => T
    end.

(** The response an attempt decoded to, when it did. *)
Definition response_of (e : event) : option responseLock :=
  match e with
  | EvEvalSha _ _ _ _ r => decoded r
  | _ => None
  end.

(** The reply of an attempt that was not a string. *)
Definition reply_not_string (e : event) : Prop :=
  match e with
  | EvEvalSha _ _ _ _ (inl ReplyNil) => True
  | EvEvalSha _ _ _ _ (inl (ReplyInt _)) => True
  | _ => False
  end.

(** The last event of a log satisfies [P]. *)
Definition ends_with (P : event -> Prop) (l : list event) : Prop :=
  exists l' ev, l = (l' ++ [ev])%list /\ P ev.

(** The procedure handle in force after the events [l], starting from [h]:
    the one returned by the last successful script load, if any. *)
Fixpoint handle_after (h : string) (l : list event) : string :=
  match l with
  | [] => h
  | EvScriptLoad _ _ (inl h') :: l' => handle_after h' l'
  | _ :: l' => handle_after h l'
  end.

(** Every attempt in [l] carries the handle in force when it is made. *)
Fixpoint uses_handle (h : string) (l : list event) : Prop :=
  match l with
  | [] => True
  | EvEvalSha _ sha _ _ _ :: l' => sha = h /\ uses_handle h l'
  | EvScriptLoad _ _ (inl h') :: l' => uses_handle h' l'
  | _ :: l' => uses_handle h l'
  end.

(** The event, if it reached the server, went through client [c]. *)
Definition through (c : UniversalClient) (e : event) : Prop :=
  match e with
  | EvPing c' _ => c' = c
  | EvScriptLoad c' _ _ => c' = c
  | EvEvalSha c' _ _ _ _ => c' = c
  | EvSleep _ => True
  end.

(** [keeps R m]: start state, log and final state of every run of [m] are
    related by [R]. *)
Definition keeps (R : state -> list event -> state -> Prop) {A} (m : M A)
  : Prop :=
  forall st, R st (log (m st)) (final (m st)).

(** The handle left behind is the one in force after the log, and every
    attempt carried the handle in force. *)
Definition tracks_handle (st : state) (l : list event) (st' : state) : Prop :=
  shaHashID st' = handle_after (shaHashID st) l /\
  uses_handle (shaHashID st) l.

(** The retained options stay, a client in place stays in place, and when
    the client is the one the retained options describe it is never
    replaced and carries all the traffic. *)
Definition keeps_connection (st : state) (l : list event) (st' : state)
  : Prop :=
  opts st' = opts st /\
  (Redis st' = None -> Redis st = None) /\
  (forall c, Redis st = Some c -> dial (opts st) = Some c ->
     Redis st' = Some c /\ Forall (through c) l).

(** Kinds of decoded responses an attempt can come back with. *)
Definition granted_response (e : event) : Prop :=
  exists res, response_of e = Some res /\
              Success res = true /\ IsError res = false.

Definition flagged_response (e : event) : Prop :=
  exists res, response_of e = Some res /\ Success res = true.

Definition error_response (m : string) (e : event) : Prop :=
  exists res, response_of e = Some res /\
              IsError res = true /\ ErrMsg res = m.

Definition refusal_response (m : string) (e : event) : Prop :=
  exists res, response_of e = Some res /\ Success res = false /\
              IsError res = true /\ ErrMsg res = m.

(** How a run of an acquire loop given [fuel] iterations can end: by a
    return after an attempt satisfying [PD], by a panic with message [m]
    after an attempt satisfying [PP m], in both cases having slept once
    between two attempts; by a run-time error; or, fuel exhausted, after
    [fuel] attempts each followed by a sleep. *)
Definition acquire_profile (PD : event -> Prop)
  (PP : string -> event -> Prop) (fuel : nat) (r : run unit) : Prop :=
  match out r with
  | Done _ =>
      ends_with PD (log r) /\ (sleeps (log r) + 1 = attempts (log r))%nat
  | Panicked (PanicString m) =>
      ends_with (PP m) (log r) /\ (sleeps (log r) + 1 = attempts (log r))%nat
  | Panicked (RuntimeError _) => True
  | OutOfFuel => attempts (log r) = fuel /\ sleeps (log r) = fuel
  end.

(** How a run of a release loop that started with [i] tries can end: by a
    return after an attempt with the succeeded flag or after all [i]
    tries, or by a panic with message [m] after an attempt satisfying
    [PP m]. *)
Definition release_exit (PP : string -> event -> Prop) (i : Z)
  (r : run unit) : Prop :=
  match out r with
  | Done _ =>
      ends_with flagged_response (log r) \/ attempts (log r) = Z.to_nat i
  | Panicked (PanicString m) => ends_with (PP m) (log r)
  | _ => True
  end.

(** [alive m]: run with a client in place, [m] leaves a client in place
    and its only possible run-time error is the failed type assertion. *)
Definition alive {A} (m : M A) : Prop :=
  forall st,
    Redis st <> None ->
    Redis (final (m st)) <> None /\
    forall w, out (m st) = Panicked (RuntimeError w) ->
              RuntimeError w = not_a_string.

(** The run ended: it did not stop for lack of fuel. *)
Definition finishes {A} (r : run A) : Prop := out r <> OutOfFuel.

End Observations.

(** * Properties *)
Section Theory.

Context {W : Store}.

(** ** The monad *)

Lemma bind_done {A B} (m : M A) (k : A -> M B) st a :
  out (m st) = Done a ->
  bind m k st =
  {| out := out (k a (final (m st)));
     final := final (k a (final (m st)));
     log := log (m st) ++ log (k a (final (m st))) |}.
Proof. intros H. unfold bind. rewrite H. reflexivity. Qed.

Lemma bind_panicked {A B} (m : M A) (k : A -> M B) st p :
  out (m st) = Panicked p ->
  bind m k st = {| out := Panicked p; final := final (m st); log := log (m st) |}.
Proof. intros H. unfold bind. rewrite H. reflexivity. Qed.

Lemma bind_out_of_fuel {A B} (m : M A) (k : A -> M B) st :
  out (m st) = OutOfFuel ->
  bind m k st = {| out := OutOfFuel; final := final (m st); log := log (m st) |}.
Proof. intros H. unfold bind. rewrite H. reflexivity. Qed.

Lemma run_eta {A} (r : run A) :
  r = {| out := out r; final := final r; log := log r |}.
Proof. destruct r; reflexivity. Qed.

Lemma attempts_app l1 l2 : attempts (l1 ++ l2) = (attempts l1 + attempts l2)%nat.
Proof. unfold attempts. rewrite filter_app, length_app. reflexivity. Qed.

(** ** Compositional bounds on what a computation may do *)
Section Within.

Variable P : event -> Prop.
Variable Q : panic_value -> Prop.
Variable T : Prop.

Lemma within_ret {A} (a : A) : within P Q T (ret a).
Proof. intros st; simpl; auto. Qed.

Lemma within_gets {A} (f : state -> A) : within P Q T (gets f).
Proof. intros st; simpl; auto. Qed.

Lemma within_modify f : within P Q T (modify f).
Proof. intros st; simpl; auto. Qed.

Lemma within_with_env {A} (f : Env -> A * Env) : within P Q T (with_env f).
Proof. intros st; unfold with_env. destruct (f (env st)); simpl; auto. Qed.

Lemma within_emit e : P e -> within P Q T (emit e).
Proof. intros H st; simpl; auto. Qed.

Lemma within_panic {A} p : Q p -> within P Q T (@panic W A p).
Proof. intros H st; simpl; auto. Qed.

Lemma within_diverge {A} : T -> within P Q T (@diverge W A).
Proof. intros H st; simpl; auto. Qed.

Lemma within_bind {A B} (m : M A) (k : A -> M B) :
  within P Q T m -> (forall a, within P Q T (k a)) -> within P Q T (bind m k).
Proof.
  intros Hm Hk st. destruct (Hm st) as [Hl Ho]. unfold bind.
  destruct (out (m st)) as [a| p |]; simpl; auto.
  destruct (Hk a (final (m st))) as [Hl' Ho'].
  split; [apply Forall_app; auto | exact Ho'].
Qed.

End Within.

Lemma within_weaken (P P' : event -> Prop) (Q Q' : panic_value -> Prop)
  (T T' : Prop) {A} (m : M A) :
  (forall e, P e -> P' e) -> (forall p, Q p -> Q' p) -> (T -> T') ->
  within P Q T m -> within P' Q' T' m.
Proof.
  intros HP HQ HT Hm st. destruct (Hm st) as [Hl Ho]. split.
  - eapply Forall_impl; eauto.
  - destruct (out (m st)); auto.
Qed.

(** ** The store calls *)

Lemma Redis_EvalSha_run sha keys args st :
  Redis_EvalSha sha keys args st =
  match Redis st with
  | None => {| out := Panicked nil_dereference; final := st; log := [] |}
  | Some c =>
      let r := EvalSha c sha keys args (env st) in
      {| out := Done (fst r); final := set_env (snd r) st;
         log := [EvEvalSha c sha keys args (fst r)] |}
  end.
Proof.
  unfold Redis_EvalSha, on_Redis, bind, gets, with_env, emit, ret, panic. simpl.
  destruct (Redis st) as [c|]; simpl; [|reflexivity].
  destruct (EvalSha c sha keys args (env st)); reflexivity.
Qed.

Lemma Redis_Ping_run st :
  Redis_Ping st =
  match Redis st with
  | None => {| out := Panicked nil_dereference; final := st; log := [] |}
  | Some c =>
      let r := Ping c (env st) in
      {| out := Done (fst r); final := set_env (snd r) st;
         log := [EvPing c (fst r)] |}
  end.
Proof.
  unfold Redis_Ping, on_Redis, bind, gets, with_env, emit, ret, panic. simpl.
  destruct (Redis st) as [c|]; simpl; [|reflexivity].
  destruct (Ping c (env st)); reflexivity.
Qed.

Lemma Redis_ScriptLoad_run script st :
  Redis_ScriptLoad script st =
  match Redis st with
  | None => {| out := Panicked nil_dereference; final := st; log := [] |}
  | Some c =>
      let r := ScriptLoad c script (env st) in
      {| out := Done (fst r); final := set_env (snd r) st;
         log := [EvScriptLoad c script (fst r)] |}
  end.
Proof.
  unfold Redis_ScriptLoad, on_Redis, bind, gets, with_env, emit, ret, panic. simpl.
  destruct (Redis st) as [c|]; simpl; [|reflexivity].
  destruct (ScriptLoad c script (env st)); reflexivity.
Qed.

(** ** Installing the procedure and initialising *)

Lemma LoadLua_run st :
  LoadLua st =
  match Redis st with
  | None => {| out := Panicked nil_dereference; final := st; log := [] |}
  | Some c =>
      let r := ScriptLoad c ScriptContent (env st) in
      {| out := Done (match fst r with inl _ => None | inr err => Some err end);
         final := {| Redis := Redis st; opts := opts st;
                     shaHashID := match fst r with
                                  | inl hashID => hashID
                                  | inr _ => shaHashID st
                                  end;
                     env := snd r |};
         log := [EvScriptLoad c ScriptContent (fst r)] |}
  end.
Proof.
  unfold LoadLua, bind. rewrite Redis_ScriptLoad_run.
  destruct (Redis st) as [c|] eqn:HR; simpl; [|reflexivity].
  destruct (ScriptLoad c ScriptContent (env st)) as [[h|e] e'];
    unfold set_env; simpl; rewrite ?HR; reflexivity.
Qed.

Lemma DoInit_run o st :
  DoInit o st =
  match dial o with
  | None => {| out := Done (Some (errors_New "unsupported options"));
               final := st; log := [] |}
  | Some c =>
      let p := Ping c (env st) in
      match fst p with
      | Some err =>
          {| out := Done (Some err);
             final := {| Redis := Some c; opts := opts st;
                         shaHashID := shaHashID st; env := snd p |};
             log := [EvPing c (Some err)] |}
      | None =>
          let r := ScriptLoad c ScriptContent (snd p) in
          {| out := Done (match fst r with inl _ => None | inr err => Some err end);
             final := {| Redis := Some c; opts := o;
                         shaHashID := match fst r with
                                      | inl hashID => hashID
                                      | inr _ => shaHashID st
                                      end;
                         env := snd r |};
             log := [EvPing c None; EvScriptLoad c ScriptContent (fst r)] |}
      end
  end.
Proof.
  destruct o as [opt|opt|opt| |ty]; try reflexivity;
    unfold DoInit, LoadLua, SetShaHasID, Redis_Ping, Redis_ScriptLoad, on_Redis,
      set_Redis, set_opts, bind, modify, gets, with_env, emit, ret, panic; simpl;
    destruct (Ping _ (env st)) as [[err|] e1]; simpl; try reflexivity;
    destruct (ScriptLoad _ ScriptContent e1) as [[h|err] e2]; reflexivity.
Qed.

(** ** The fault classifier *)

Lemma handleError_run err st :
  handleError err st =
  match err with
  | None => ret false st
  | Some e =>
      if (e =? EofError)%string then recovered (DoInit (opts st) st)
      else if (e =? NoScriptError)%string then recovered (LoadLua st)
      else ret false st
  end.
Proof.
  destruct err as [e|]; [|reflexivity]. unfold handleError.
  destruct (e =? EofError)%string.
  - unfold handleEofError, bind, gets, recovered. simpl.
    destruct (out (DoInit (opts st) st)) as [[e'|]|p|]; simpl;
      rewrite ?app_nil_r; reflexivity.
  - destruct (e =? NoScriptError)%string; [|reflexivity].
    unfold handleNoScriptError, bind, recovered.
    destruct (out (LoadLua st)) as [[e'|]|p|]; simpl;
      rewrite ?app_nil_r; reflexivity.
Qed.

Lemma backoff_run st :
  backoff st =
  let r := Rand 10 20 (env st) in
  {| out := Done tt; final := set_env (snd r) st;
     log := [EvSleep (wrap64 (fst r * Millisecond))] |}.
Proof.
  unfold backoff, getRandomSleepTime, Sleep, bind, with_env, emit, ret.
  destruct (Rand 10 20 (env st)); reflexivity.
Qed.

(** ** One attempt *)

Lemma sendLock_run sha key uniqID lockCmd expireTime st :
  is_command lockCmd = true ->
  sendLock sha key uniqID lockCmd expireTime st =
  match Redis st with
  | None => {| out := Panicked nil_dereference; final := st; log := [] |}
  | Some c =>
      let args := request_args lockCmd uniqID expireTime in
      let r := EvalSha c sha [key; lockCmd] args (env st) in
      {| out := interpret (fst r); final := set_env (snd r) st;
         log := [EvEvalSha c sha [key; lockCmd] args (fst r)] |}
  end.
Proof.
  intros Hcmd. unfold sendLock, request_args, is_command in *.
  assert (Hsend : forall args,
    bind (Redis_EvalSha sha [key; lockCmd] args)
      (fun r => match r with
                | inr err => ret (None, Some err)
                | inl (ReplyString retJson) =>
                    match Unmarshal retJson with
                    | inr err => ret (None, Some err)
                    | inl res => ret (Some res, None)
                    end
                | inl _ => panic not_a_string
                end) st =
    match Redis st with
    | None => {| out := Panicked nil_dereference; final := st; log := [] |}
    | Some c =>
        let r := EvalSha c sha [key; lockCmd] args (env st) in
        {| out := interpret (fst r); final := set_env (snd r) st;
           log := [EvEvalSha c sha [key; lockCmd] args (fst r)] |}
    end).
  { intros args. unfold bind. rewrite Redis_EvalSha_run.
    destruct (Redis st) as [c|]; simpl; [|reflexivity].
    destruct (EvalSha c sha [key; lockCmd] args (env st)) as [[[ |s|n]|err] e'];
      simpl; try reflexivity.
    destruct (Unmarshal s); reflexivity. }
  destruct (lockCmd =? LockCmd)%string; [apply Hsend|].
  destruct (lockCmd =? UnlockCmd)%string; [apply Hsend|].
  simpl in Hcmd. rewrite Hcmd. apply Hsend.
Qed.

Lemma sendLock_within sha key uniqID lockCmd expireTime :
  is_command lockCmd = true ->
  within (asks [key; lockCmd] (request_args lockCmd uniqID expireTime))
         is_runtime_error False
         (sendLock sha key uniqID lockCmd expireTime).
Proof.
  intros Hcmd st. rewrite sendLock_run by exact Hcmd.
  destruct (Redis st) as [c|]; simpl; [|now auto].
  split; [repeat constructor|].
  destruct (fst (EvalSha c sha [key; lockCmd]
                   (request_args lockCmd uniqID expireTime) (env st)))
    as [[ |s|n]|err]; simpl; auto.
  destruct (Unmarshal s); exact I.
Qed.

Lemma handleError_within err :
  within is_recovery is_runtime_error False (handleError err).
Proof.
  intros st. rewrite handleError_run.
  destruct err as [e|]; [|now (simpl; auto)].
  destruct (e =? EofError)%string.
  - rewrite DoInit_run. destruct (dial (opts st)) as [c|]; [|now (simpl; auto)].
    simpl. destruct (fst (Ping c (env st))); simpl;
      [now (split; [repeat constructor|exact I])|].
    split; [repeat constructor|].
    destruct (fst (ScriptLoad c ScriptContent (snd (Ping c (env st))))); exact I.
  - destruct (e =? NoScriptError)%string; [|now (simpl; auto)].
    rewrite LoadLua_run. destruct (Redis st) as [c|]; simpl; [|now auto].
    split; [repeat constructor|].
    destruct (fst (ScriptLoad c ScriptContent (env st))); exact I.
Qed.

Lemma backoff_within (P : event -> Prop) Q T :
  (forall d, P (EvSleep d)) -> within P Q T backoff.
Proof.
  intros HP st. rewrite backoff_run. simpl. split; [repeat constructor; apply HP|exact I].
Qed.

Lemma recovery_asks keys args e : is_recovery e -> asks keys args e.
Proof. destruct e; simpl; auto. intros [H _]; discriminate. Qed.

Lemma recover_within err : within is_recovery is_runtime_error False (recover err).
Proof.
  destruct err; [|apply within_ret].
  apply within_bind; [apply handleError_within|intros; apply within_ret].
Qed.

(** ** The loops, one iteration at a time *)

Lemma Lock_loop_step fuel key uniqID expireTime st :
  Lock_loop (S fuel) key uniqID expireTime st =
  bind (sendLock (shaHashID st) key uniqID LockCmd expireTime)
    (fun '(res, err) =>
       match err with
       | Some _ =>
           handleError err ;;; backoff ;;; Lock_loop fuel key uniqID expireTime
       | None =>
           if holds res IsError then
             match res with
             | Some r => panic (PanicString (Error r))
             | None => ret tt
             end
           else if holds res Success then ret tt
           else backoff ;;; Lock_loop fuel key uniqID expireTime
       end) st.
Proof.
  cbn [Lock_loop]. unfold GetShaHashID. unfold bind at 1. cbn [gets out final log app].
  symmetry. apply run_eta.
Qed.

Lemma Unlock_loop_step fuel i key uniqID st :
  Unlock_loop (S fuel) i key uniqID st =
  bind (sendLock (shaHashID st) key uniqID UnlockCmd 0)
    (fun '(res, err) =>
       if holds res Success then ret tt
       else if holds res IsError then
         match res with
         | Some r => panic (PanicString (Error r))
         | None => ret tt
         end
       else
         recover err ;;;
         if i - 1 <=? 0 then ret tt
         else backoff ;;; Unlock_loop fuel (i - 1) key uniqID) st.
Proof.
  cbn [Unlock_loop]. unfold GetShaHashID. unfold bind at 1. cbn [gets out final log app].
  symmetry. apply run_eta.
Qed.

Lemma RLock_loop_step fuel key st :
  RLock_loop (S fuel) key st =
  bind (sendLock (shaHashID st) key EmptyString RLockCmd 0)
    (fun '(res, err) =>
       if holds res Success then ret tt
       else recover err ;;; backoff ;;; RLock_loop fuel key) st.
Proof.
  cbn [RLock_loop]. unfold GetShaHashID. unfold bind at 1. cbn [gets out final log app].
  symmetry. apply run_eta.
Qed.

Lemma RUnlock_loop_step fuel i key st :
  RUnlock_loop (S fuel) i key st =
  bind (sendLock (shaHashID st) key EmptyString RUnlockCmd 0)
    (fun '(res, err) =>
       if holds res Success then ret tt
       else
         recover err ;;;
         if i - 1 <=? 0 then ret tt
         else backoff ;;; RUnlock_loop fuel (i - 1) key) st.
Proof.
  cbn [RUnlock_loop]. unfold GetShaHashID. unfold bind at 1. cbn [gets out final log app].
  symmetry. apply run_eta.
Qed.

(** ** What the loops may send and how they may end *)

Lemma sendLock_asks sha key uniqID lockCmd expireTime
  (Q : panic_value -> Prop) (T : Prop) :
  is_command lockCmd = true ->
  (forall p, is_runtime_error p -> Q p) ->
  within (asks [key; lockCmd] (request_args lockCmd uniqID expireTime)) Q T
         (sendLock sha key uniqID lockCmd expireTime).
Proof.
  intros Hcmd HQ.
  apply within_weaken with (4 := sendLock_within sha key uniqID lockCmd expireTime Hcmd).
  - auto.
  - exact HQ.
  - contradiction.
Qed.

Lemma recover_asks keys args (Q : panic_value -> Prop) (T : Prop) err :
  (forall p, is_runtime_error p -> Q p) ->
  within (asks keys args) Q T (recover err).
Proof.
  intros HQ. apply within_weaken with (4 := recover_within err).
  - intros e; apply recovery_asks.
  - exact HQ.
  - contradiction.
Qed.

Lemma handleError_asks keys args (Q : panic_value -> Prop) (T : Prop) err :
  (forall p, is_runtime_error p -> Q p) ->
  within (asks keys args) Q T (handleError err).
Proof.
  intros HQ. apply within_weaken with (4 := handleError_within err).
  - intros e; apply recovery_asks.
  - exact HQ.
  - contradiction.
Qed.

Lemma backoff_asks keys args Q T : within (asks keys args) Q T backoff.
Proof. apply backoff_within. intros d; exact I. Qed.

Lemma Lock_loop_within fuel key uniqID expireTime :
  within (asks [key; LockCmd] [uniqID; Itoa expireTime]) (fun _ => True) True
         (Lock_loop fuel key uniqID expireTime).
Proof.
  induction fuel as [|fuel IH]; [apply within_diverge; exact I|].
  cbn [Lock_loop].
  assert (Hback : within (asks [key; LockCmd] [uniqID; Itoa expireTime])
                    (fun _ => True) True
                    (backoff ;;; Lock_loop fuel key uniqID expireTime)).
  { apply within_bind; [apply backoff_asks|intros _; exact IH]. }
  apply within_bind; [apply within_gets|intros sha].
  apply within_bind.
  - apply (sendLock_asks sha key uniqID LockCmd expireTime); [reflexivity|auto].
  - intros [res err]. destruct err as [e|].
    + apply within_bind; [apply handleError_asks; auto|intros _; exact Hback].
    + destruct (holds res IsError).
      * destruct res; [apply within_panic; exact I|apply within_ret].
      * destruct (holds res Success); [apply within_ret|exact Hback].
Qed.

Lemma RLock_loop_within fuel key :
  within (asks [key; RLockCmd] [EmptyString]) is_runtime_error True
         (RLock_loop fuel key).
Proof.
  induction fuel as [|fuel IH]; [apply within_diverge; exact I|].
  cbn [RLock_loop].
  apply within_bind; [apply within_gets|intros sha].
  apply within_bind.
  - apply (sendLock_asks sha key EmptyString RLockCmd 0); [reflexivity|auto].
  - intros [res err]. destruct (holds res Success); [apply within_ret|].
    apply within_bind; [apply (recover_asks _ _ _ _ err); auto|intros _].
    apply within_bind; [apply backoff_asks|intros _; exact IH].
Qed.

Lemma RUnlock_loop_within fuel i key :
  within (asks [key; RUnlockCmd] [EmptyString]) is_runtime_error True
         (RUnlock_loop fuel i key).
Proof.
  revert i. induction fuel as [|fuel IH]; intros i; [apply within_diverge; exact I|].
  cbn [RUnlock_loop].
  apply within_bind; [apply within_gets|intros sha].
  apply within_bind.
  - apply (sendLock_asks sha key EmptyString RUnlockCmd 0); [reflexivity|auto].
  - intros [res err]. destruct (holds res Success); [apply within_ret|].
    apply within_bind; [apply (recover_asks _ _ _ _ err); auto|intros _].
    cbv zeta. destruct (i - 1 <=? 0); [apply within_ret|].
    apply within_bind; [apply backoff_asks|intros _; apply IH].
Qed.

Lemma Unlock_loop_within fuel i key uniqID :
  within (asks [key; UnlockCmd] [uniqID]) (fun _ => True) True
         (Unlock_loop fuel i key uniqID).
Proof.
  revert i. induction fuel as [|fuel IH]; intros i; [apply within_diverge; exact I|].
  cbn [Unlock_loop].
  apply within_bind; [apply within_gets|intros sha].
  apply within_bind.
  - apply (sendLock_asks sha key uniqID UnlockCmd 0); [reflexivity|auto].
  - intros [res err]. destruct (holds res Success); [apply within_ret|].
    destruct (holds res IsError).
    { destruct res; [apply within_panic; exact I|apply within_ret]. }
    apply within_bind; [apply (recover_asks _ _ _ _ err); auto|intros _].
    cbv zeta. destruct (i - 1 <=? 0); [apply within_ret|].
    apply within_bind; [apply backoff_asks|intros _; apply IH].
Qed.

(** ** Counting attempts *)

Lemma sleeps_app l1 l2 : sleeps (l1 ++ l2) = (sleeps l1 + sleeps l2)%nat.
Proof. unfold sleeps. rewrite filter_app, length_app. reflexivity. Qed.

Lemma recovery_counts l :
  Forall is_recovery l ->
  attempts l = 0%nat /\ sleeps l = 0%nat /\
  Forall (fun e => succeeded e = false) l.
Proof.
  induction 1 as [|e l [Ha Hs] _ (IHa & IHs & IHf)]; [repeat split; constructor|].
  unfold attempts, sleeps in *. simpl. rewrite Ha, Hs. repeat split; auto.
  constructor; [|exact IHf]. destruct e; try reflexivity; discriminate.
Qed.

(** An attempt that comes back leaves exactly one event, and that event
    succeeded exactly when the caller sees [res.Success()]. *)
Lemma sendLock_attempt sha key uniqID lockCmd expireTime st :
  is_command lockCmd = true ->
  match out (sendLock sha key uniqID lockCmd expireTime st) with
  | Done (res, err) =>
      exists ev,
        log (sendLock sha key uniqID lockCmd expireTime st) = [ev] /\
        is_attempt ev = true /\ is_sleep ev = false /\
        succeeded ev = holds res Success
  | Panicked _ =>
      (attempts (log (sendLock sha key uniqID lockCmd expireTime st)) <= 1)%nat /\
      sleeps (log (sendLock sha key uniqID lockCmd expireTime st)) = 0%nat
  | OutOfFuel => False
  end.
Proof.
  intros Hcmd. rewrite sendLock_run by exact Hcmd.
  destruct (Redis st) as [c|]; simpl; [|split; [apply Nat.le_0_l|reflexivity]].
  destruct (fst (EvalSha c sha [key; lockCmd]
                   (request_args lockCmd uniqID expireTime) (env st)))
    as [[ |s|n]|err] eqn:Hr; simpl;
    try (split; [apply Nat.le_refl|reflexivity]).
  - destruct (Unmarshal s) as [res|err] eqn:Hu; eexists; repeat split;
      simpl; rewrite Hu; reflexivity.
  - eexists; repeat split.
Qed.

(** What follows a failed attempt in the two release loops. *)
Lemma release_tail (L : M unit) err i (fuelled : Prop) st :
  1 <= i ->
  (1 <= i - 1 -> forall st', release_bound (Z.to_nat (i - 1)) 0 fuelled (L st')) ->
  release_bound (Z.to_nat i) 1 fuelled
    ((recover err ;;; if i - 1 <=? 0 then ret tt else backoff ;;; L) st).
Proof.
  intros Hi HL.
  destruct (recover_within err st) as [Hrec Hout].
  destruct (recovery_counts _ Hrec) as (Ha & Hs & Hf).
  destruct (out (recover err st)) as [[]|p|] eqn:Hr; [|clear Hout|contradiction].
  - rewrite (bind_done _ _ _ _ Hr). unfold release_bound. cbn [out log].
    destruct (Z.leb_spec (i - 1) 0) as [Hle|Hgt].
    + cbn [ret out log]. rewrite app_nil_r, Ha, Hs.
      repeat split; try lia. discriminate.
    + rewrite (bind_done _ _ _ tt) by (rewrite backoff_run; reflexivity).
      cbn [out log]. rewrite !attempts_app, !sleeps_app, Ha, Hs.
      rewrite backoff_run. cbn [log final].
      destruct (HL ltac:(lia) (set_env (snd (Rand 10 20 (env (final (recover err st)))))
                                 (final (recover err st)))) as (HA & HF & HD).
      change (attempts [EvSleep _]) with 0%nat.
      change (sleeps [EvSleep _]) with 1%nat.
      split; [lia|split; [exact HF|]].
      intros Hd Hall. apply Forall_app in Hall. destruct Hall as [_ Hall].
      apply Forall_app in Hall. destruct Hall as [_ Hall].
      destruct (HD Hd Hall). split; lia.
  - rewrite (bind_panicked _ _ _ _ Hr). unfold release_bound. cbn [out log].
    rewrite Ha. repeat split; try lia; discriminate.
Qed.

Lemma attempts_single ev : attempts [ev] = if is_attempt ev then 1%nat else 0%nat.
Proof. unfold attempts. simpl. destruct (is_attempt ev); reflexivity. Qed.

Lemma sleeps_single ev : sleeps [ev] = if is_sleep ev then 1%nat else 0%nat.
Proof. unfold sleeps. simpl. destruct (is_sleep ev); reflexivity. Qed.

Lemma release_bound_fuel n used (F F' : Prop) r :
  (F' -> F) -> release_bound n used F r -> release_bound n used F' r.
Proof. intros HF (H1 & H2 & H3). repeat split; auto; apply H3; auto. Qed.

(** Putting the attempt in front of what follows it. *)
Lemma release_bound_attempt n F ev (r : run unit) :
  is_attempt ev = true -> is_sleep ev = false ->
  release_bound n 1 F r ->
  release_bound n 0 F {| out := out r; final := final r; log := [ev] ++ log r |}.
Proof.
  intros Ha Hs (H1 & H2 & H3). unfold release_bound. cbn [out log].
  rewrite attempts_app, sleeps_app, attempts_single, sleeps_single, Ha, Hs.
  split; [lia|split; [exact H2|]].
  intros Hd Hall. apply Forall_app in Hall. destruct Hall as [_ Hall].
  destruct (H3 Hd Hall). split; lia.
Qed.

(** An attempt that ends the call on the spot: by success or by a panic. *)
Lemma release_bound_stop n F ev (o : outcome unit) st :
  (1 <= n)%nat -> is_attempt ev = true ->
  (o = Done tt -> succeeded ev = true) -> o <> OutOfFuel ->
  release_bound n 0 F {| out := o; final := st; log := [ev] ++ [] |}.
Proof.
  intros Hn Ha Hs Ho. unfold release_bound. cbn [out log app].
  rewrite attempts_single, Ha. split; [lia|split; [intros _; exact Ho|]].
  intros Hd Hall. inversion Hall as [|? ? Hev _]; subst.
  rewrite (Hs eq_refl) in Hev. discriminate.
Qed.

Lemma release_bound_crash n F (r : run (option responseLock * option error)) p :
  (1 <= n)%nat -> (attempts (log r) <= 1)%nat ->
  release_bound n 0 F {| out := Panicked p; final := final r; log := log r |}.
Proof.
  intros Hn Ha. unfold release_bound. cbn [out log].
  split; [lia|split; discriminate].
Qed.

Lemma Unlock_loop_bound fuel :
  forall i key uniqID st,
    1 <= i ->
    release_bound (Z.to_nat i) 0 (Z.to_nat i <= fuel)%nat
      (Unlock_loop fuel i key uniqID st).
Proof.
  induction fuel as [|fuel IH]; intros i key uniqID st Hi.
  - unfold release_bound. cbn. split; [lia|split; [intros; lia|discriminate]].
  - rewrite Unlock_loop_step.
    pose proof (sendLock_attempt (shaHashID st) key uniqID UnlockCmd 0 st eq_refl) as Hat.
    destruct (out (sendLock (shaHashID st) key uniqID UnlockCmd 0 st))
      as [[res err]|p|] eqn:Ha; [|destruct Hat|contradiction].
    + rewrite (bind_done _ _ _ _ Ha).
      destruct Hat as (ev & Hlog & Hatt & Hsl & Hsucc). rewrite Hlog.
      destruct (holds res Success) eqn:HS.
      { apply release_bound_stop; auto; [lia|discriminate]. }
      destruct (holds res IsError) eqn:HE.
      { destruct res; [|discriminate].
        apply release_bound_stop; auto; [lia|discriminate|discriminate]. }
      apply release_bound_attempt; auto.
      apply release_tail; [exact Hi|]. intros Hi' st'.
      apply release_bound_fuel with (2 := IH (i - 1) key uniqID st' Hi'). lia.
    + rewrite (bind_panicked _ _ _ _ Ha). apply release_bound_crash; [lia|tauto].
Qed.

Lemma RUnlock_loop_bound fuel :
  forall i key st,
    1 <= i ->
    release_bound (Z.to_nat i) 0 (Z.to_nat i <= fuel)%nat
      (RUnlock_loop fuel i key st).
Proof.
  induction fuel as [|fuel IH]; intros i key st Hi.
  - unfold release_bound. cbn. split; [lia|split; [intros; lia|discriminate]].
  - rewrite RUnlock_loop_step.
    pose proof (sendLock_attempt (shaHashID st) key EmptyString RUnlockCmd 0 st eq_refl) as Hat.
    destruct (out (sendLock (shaHashID st) key EmptyString RUnlockCmd 0 st))
      as [[res err]|p|] eqn:Ha; [|destruct Hat|contradiction].
    + rewrite (bind_done _ _ _ _ Ha).
      destruct Hat as (ev & Hlog & Hatt & Hsl & Hsucc). rewrite Hlog.
      destruct (holds res Success) eqn:HS.
      { apply release_bound_stop; auto; [lia|discriminate]. }
      apply release_bound_attempt; auto.
      apply release_tail; [exact Hi|]. intros Hi' st'.
      apply release_bound_fuel with (2 := IH (i - 1) key st' Hi'). lia.
    + rewrite (bind_panicked _ _ _ _ Ha). apply release_bound_crash; [lia|tauto].
Qed.

Lemma bind_log_prefix {A B} (m : M A) (k : A -> M B) st :
  exists rest, log (bind m k st) = (log (m st) ++ rest)%list.
Proof.
  unfold bind. destruct (out (m st)); cbn [log].
  - eexists; reflexivity.
  - exists []. symmetry; apply app_nil_r.
  - exists []. symmetry; apply app_nil_r.
Qed.

Lemma sendLock_first sha key uniqID lockCmd expireTime st c :
  is_command lockCmd = true -> Redis st = Some c ->
  exists r,
    log (sendLock sha key uniqID lockCmd expireTime st) =
    [EvEvalSha c sha [key; lockCmd] (request_args lockCmd uniqID expireTime) r].
Proof.
  intros Hcmd Hc. rewrite sendLock_run by exact Hcmd. rewrite Hc.
  eexists; reflexivity.
Qed.

Lemma recovered_true r :
  out (recovered r) = Done true <-> out r = Done None.
Proof.
  unfold recovered. cbn [out].
  destruct (out r) as [[e|]|p|]; split; intros H; try discriminate; reflexivity.
Qed.

(** The classifier's verdict is dropped by [recover]. *)
Lemma recover_discards e b (k : M unit) st :
  out (handleError (Some e) st) = Done b ->
  (recover (Some e) ;;; k) st =
  {| out := out (k (final (handleError (Some e) st)));
     final := final (k (final (handleError (Some e) st)));
     log := log (handleError (Some e) st)
            ++ log (k (final (handleError (Some e) st))) |}.
Proof.
  intros Hb. cbn [recover]. unfold bind at 1 2. rewrite Hb.
  cbn [ret out final log]. rewrite app_nil_r. reflexivity.
Qed.

End Theory.

(** * The claims *)
Section Claims.

Context {W : Store}.

(** C1 (the code departs from the claim).  [Lock] guards its key with
    [len(key) < 0], which no string satisfies: with an empty key the guard
    is skipped and the lock transition is attempted, as the run against a
    granting store shows (one LOCK request for the empty key, then a normal
    return).  [RUnlock], whose guard is [len(key) <= 0], does panic at once
    and sends nothing. *)
Theorem C1_empty_key_guards :
  (forall fuel uniqID expireTime (st : state),
     Lock fuel EmptyString uniqID expireTime st =
     Lock_loop fuel EmptyString uniqID
       (if expireTime <=? 0 then 5 else expireTime) st)
  /\ (out (Lock (W := Scripted.store) 1 EmptyString "w1" 5 Scripted.granting)
       = Done tt
      /\ log (Lock (W := Scripted.store) 1 EmptyString "w1" 5 Scripted.granting)
         = [EvEvalSha (NewClient Scripted.single) "sha-0"
              [EmptyString; LockCmd] ["w1"; "5"]
              (Scripted.says Scripted.granted)])
  /\ (forall fuel (st : state),
        RUnlock fuel EmptyString st =
        {| out := Panicked (PanicString "runlock nil key");
           final := st; log := [] |}).
Proof.
  split; [|split; [split|]].
  - intros. reflexivity.
  - vm_compute. reflexivity.
  - vm_compute. reflexivity.
  - intros. reflexivity.
Qed.

(** C2 (as amended).  In [Lock] a decoded result with a non-empty error
    message ends the call with a panic carrying that message, whatever its
    succeeded flag.  In [Unlock] the succeeded flag is looked at first: the
    same result ends the call with that panic only when the flag is false,
    and with a normal return when it is true. *)
Theorem C2_error_message_precedence fuel i key uniqID expireTime
  (st : state) res :
  IsError res = true ->
  (out (sendLock (shaHashID st) key uniqID LockCmd expireTime st)
     = Done (Some res, None) ->
   Lock_loop (S fuel) key uniqID expireTime st =
   {| out := Panicked (PanicString (ErrMsg res));
      final := final (sendLock (shaHashID st) key uniqID LockCmd expireTime st);
      log := log (sendLock (shaHashID st) key uniqID LockCmd expireTime st) |})
  /\
  (out (sendLock (shaHashID st) key uniqID UnlockCmd 0 st)
     = Done (Some res, None) ->
   Unlock_loop (S fuel) i key uniqID st =
   {| out := if Success res then Done tt
             else Panicked (PanicString (ErrMsg res));
      final := final (sendLock (shaHashID st) key uniqID UnlockCmd 0 st);
      log := log (sendLock (shaHashID st) key uniqID UnlockCmd 0 st) |}).
Proof.
  intros HE. split; intros Ha.
  - rewrite Lock_loop_step, (bind_done _ _ _ _ Ha). cbn [holds].
    rewrite HE. cbn [panic out final log]. rewrite app_nil_r. reflexivity.
  - rewrite Unlock_loop_step, (bind_done _ _ _ _ Ha). cbn [holds].
    destruct (Success res); [|rewrite HE];
      cbn [ret panic out final log]; rewrite app_nil_r; reflexivity.
Qed.

(** C3 (as amended).  [RUnlock] never looks at the error message.  A
    decoded result with a non-empty error message ends the call normally
    when its succeeded flag is set or when it was the last try; otherwise
    the call sleeps and tries again with one try less.  With a non-empty
    key [RUnlock] never panics with a message of its own: a domain error
    cannot abort it. *)
Theorem C3_RUnlock_retries_domain_errors fuel i key (st : state) res :
  IsError res = true ->
  key <> EmptyString ->
  out (sendLock (shaHashID st) key EmptyString RUnlockCmd 0 st)
    = Done (Some res, None) ->
  RUnlock_loop (S fuel) i key st =
  (if Success res || (i - 1 <=? 0) then
     {| out := Done tt;
        final := final (sendLock (shaHashID st) key EmptyString RUnlockCmd 0 st);
        log := log (sendLock (shaHashID st) key EmptyString RUnlockCmd 0 st) |}
   else
     {| out := out ((backoff ;;; RUnlock_loop fuel (i - 1) key)
                      (final (sendLock (shaHashID st) key EmptyString RUnlockCmd 0 st)));
        final := final ((backoff ;;; RUnlock_loop fuel (i - 1) key)
                      (final (sendLock (shaHashID st) key EmptyString RUnlockCmd 0 st)));
        log := log (sendLock (shaHashID st) key EmptyString RUnlockCmd 0 st)
               ++ log ((backoff ;;; RUnlock_loop fuel (i - 1) key)
                      (final (sendLock (shaHashID st) key EmptyString RUnlockCmd 0 st)))
     |})
  /\
  (forall fuel' st',
     match out (RUnlock fuel' key st') with
     | Panicked p => is_runtime_error p
     | _ => True
     end).
Proof.
  intros _ Hkey Ha. split.
  - rewrite RUnlock_loop_step, (bind_done _ _ _ _ Ha). cbn [holds].
    destruct (Success res); cbn [orb].
    + cbn [ret out final log]. rewrite app_nil_r. reflexivity.
    + cbn [recover]. unfold bind at 1 2 3. cbn [ret out final log app].
      destruct (i - 1 <=? 0); cbn [ret out final log];
        rewrite ?app_nil_r; reflexivity.
  - intros fuel' st'. unfold RUnlock.
    destruct (Z.leb_spec (len key) 0) as [Hle|_].
    + destruct key; [contradiction|]. unfold len in Hle. cbn in Hle. lia.
    + destruct (RUnlock_loop_within fuel' 10 key st') as [_ H].
      destruct (out (RUnlock_loop fuel' 10 key st')); auto.
Qed.

(** C8 (as amended).  [RLock] never looks at the error message either.  A
    decoded result with a non-empty error message ends the call normally
    when its succeeded flag is set; otherwise the call sleeps and starts
    the next attempt.  [RLock] never panics with a message of its own. *)
Theorem C8_RLock_retries_domain_errors fuel key (st : state) res :
  IsError res = true ->
  out (sendLock (shaHashID st) key EmptyString RLockCmd 0 st)
    = Done (Some res, None) ->
  RLock_loop (S fuel) key st =
  (if Success res then
     {| out := Done tt;
        final := final (sendLock (shaHashID st) key EmptyString RLockCmd 0 st);
        log := log (sendLock (shaHashID st) key EmptyString RLockCmd 0 st) |}
   else
     {| out := out ((backoff ;;; RLock_loop fuel key)
                      (final (sendLock (shaHashID st) key EmptyString RLockCmd 0 st)));
        final := final ((backoff ;;; RLock_loop fuel key)
                      (final (sendLock (shaHashID st) key EmptyString RLockCmd 0 st)));
        log := log (sendLock (shaHashID st) key EmptyString RLockCmd 0 st)
               ++ log ((backoff ;;; RLock_loop fuel key)
                      (final (sendLock (shaHashID st) key EmptyString RLockCmd 0 st)))
     |})
  /\
  (exists d rest,
     log ((backoff ;;; RLock_loop fuel key)
            (final (sendLock (shaHashID st) key EmptyString RLockCmd 0 st)))
     = EvSleep d :: rest)
  /\
  (forall fuel' st',
     match out (RLock fuel' key st') with
     | Panicked p => is_runtime_error p
     | _ => True
     end).
Proof.
  intros _ Ha. split; [|split].
  - rewrite RLock_loop_step, (bind_done _ _ _ _ Ha). cbn [holds].
    destruct (Success res).
    + cbn [ret out final log]. rewrite app_nil_r. reflexivity.
    + cbn [recover]. unfold bind at 1 2. cbn [ret out final log app].
      reflexivity.
  - destruct (bind_log_prefix backoff (fun _ => RLock_loop fuel key)
                (final (sendLock (shaHashID st) key EmptyString RLockCmd 0 st)))
      as [rest Hrest].
    rewrite Hrest, backoff_run. cbn [log app]. eexists; eexists; reflexivity.
  - intros fuel' st'. unfold RLock.
    destruct (RLock_loop_within fuel' key st') as [_ H].
    destruct (out (RLock_loop fuel' key st')); auto.
Qed.

(** C4.  [handleError] compares the error text with the two literal
    messages.  On [EOF] it runs [DoInit] on the retained options: when it
    reports recovery, the client was rebuilt from those options, pinged,
    and the script was loaded again, the options staying as they were.  On
    the NOSCRIPT message it runs [LoadLua] alone: client and options are
    untouched and the only traffic is one script load.  Any other error,
    and nil, does nothing and reports false.  A recovery that fails reports
    false.  The four loops drop the verdict: after a failed attempt the
    iteration goes on the same way whatever [handleError] returned. *)
Theorem C4_fault_classifier (st : state) :
  handleError None st = ret false st
  /\ (forall e, (e =? EofError)%string = false ->
                (e =? NoScriptError)%string = false ->
                handleError (Some e) st = ret false st)
  /\ handleError (Some EofError) st = recovered (DoInit (opts st) st)
  /\ (out (handleError (Some EofError) st) = Done true ->
      exists c hashID,
        dial (opts st) = Some c /\
        log (handleError (Some EofError) st)
          = [EvPing c None; EvScriptLoad c ScriptContent (inl hashID)] /\
        Redis (final (handleError (Some EofError) st)) = Some c /\
        opts (final (handleError (Some EofError) st)) = opts st /\
        shaHashID (final (handleError (Some EofError) st)) = hashID)
  /\ handleError (Some NoScriptError) st = recovered (LoadLua st)
  /\ (Redis (final (handleError (Some NoScriptError) st)) = Redis st /\
      opts (final (handleError (Some NoScriptError) st)) = opts st /\
      forall c, Redis st = Some c ->
        exists r,
          log (handleError (Some NoScriptError) st)
            = [EvScriptLoad c ScriptContent r] /\
          (out (handleError (Some NoScriptError) st) = Done true
           <-> exists hashID, r = inl hashID))
  /\ (forall x, out (DoInit (opts st) st) = Done (Some x) ->
                out (handleError (Some EofError) st) = Done false)
  /\ (forall x, out (LoadLua st) = Done (Some x) ->
                out (handleError (Some NoScriptError) st) = Done false)
  /\ (forall fuel key uniqID expireTime e b,
        out (sendLock (shaHashID st) key uniqID LockCmd expireTime st)
          = Done (None, Some e) ->
        out (handleError (Some e)
               (final (sendLock (shaHashID st) key uniqID LockCmd expireTime st)))
          = Done b ->
        Lock_loop (S fuel) key uniqID expireTime st =
        after_recovery
          (sendLock (shaHashID st) key uniqID LockCmd expireTime st)
          (handleError (Some e)
             (final (sendLock (shaHashID st) key uniqID LockCmd expireTime st)))
          ((backoff ;;; Lock_loop fuel key uniqID expireTime)
             (final (handleError (Some e)
                (final (sendLock (shaHashID st) key uniqID LockCmd expireTime st))))))
  /\ (forall fuel i key uniqID e b,
        out (sendLock (shaHashID st) key uniqID UnlockCmd 0 st)
          = Done (None, Some e) ->
        out (handleError (Some e)
               (final (sendLock (shaHashID st) key uniqID UnlockCmd 0 st)))
          = Done b ->
        Unlock_loop (S fuel) i key uniqID st =
        after_recovery
          (sendLock (shaHashID st) key uniqID UnlockCmd 0 st)
          (handleError (Some e)
             (final (sendLock (shaHashID st) key uniqID UnlockCmd 0 st)))
          ((if i - 1 <=? 0 then ret tt
            else backoff ;;; Unlock_loop fuel (i - 1) key uniqID)
             (final (handleError (Some e)
                (final (sendLock (shaHashID st) key uniqID UnlockCmd 0 st))))))
  /\ (forall fuel key e b,
        out (sendLock (shaHashID st) key EmptyString RLockCmd 0 st)
          = Done (None, Some e) ->
        out (handleError (Some e)
               (final (sendLock (shaHashID st) key EmptyString RLockCmd 0 st)))
          = Done b ->
        RLock_loop (S fuel) key st =
        after_recovery
          (sendLock (shaHashID st) key EmptyString RLockCmd 0 st)
          (handleError (Some e)
             (final (sendLock (shaHashID st) key EmptyString RLockCmd 0 st)))
          ((backoff ;;; RLock_loop fuel key)
             (final (handleError (Some e)
                (final (sendLock (shaHashID st) key EmptyString RLockCmd 0 st))))))
  /\ (forall fuel i key e b,
        out (sendLock (shaHashID st) key EmptyString RUnlockCmd 0 st)
          = Done (None, Some e) ->
        out (handleError (Some e)
               (final (sendLock (shaHashID st) key EmptyString RUnlockCmd 0 st)))
          = Done b ->
        RUnlock_loop (S fuel) i key st =
        after_recovery
          (sendLock (shaHashID st) key EmptyString RUnlockCmd 0 st)
          (handleError (Some e)
             (final (sendLock (shaHashID st) key EmptyString RUnlockCmd 0 st)))
          ((if i - 1 <=? 0 then ret tt
            else backoff ;;; RUnlock_loop fuel (i - 1) key)
             (final (handleError (Some e)
                (final (sendLock (shaHashID st) key EmptyString RUnlockCmd 0 st)))))).
Proof.
  assert (Heof : handleError (Some EofError) st = recovered (DoInit (opts st) st))
    by (rewrite handleError_run; reflexivity).
  assert (Hns : handleError (Some NoScriptError) st = recovered (LoadLua st))
    by (rewrite handleError_run; reflexivity).
  split; [reflexivity|].
  split; [intros e H1 H2; rewrite handleError_run, H1, H2; reflexivity|].
  split; [exact Heof|].
  split.
  { rewrite Heof. intros H. apply recovered_true in H. revert H.
    cbn [recovered final log]. rewrite DoInit_run.
    destruct (dial (opts st)) as [c|]; [|discriminate].
    cbv zeta. destruct (fst (Ping c (env st))); [discriminate|].
    destruct (fst (ScriptLoad c ScriptContent (snd (Ping c (env st)))))
      as [h|x]; [|discriminate].
    intros _. exists c, h. cbn. repeat split. }
  split; [exact Hns|].
  split.
  { rewrite Hns. cbn [recovered final log out]. rewrite LoadLua_run.
    destruct (Redis st) as [c|] eqn:HR; cbn; rewrite ?HR; repeat split; auto;
      try discriminate.
    intros c' Hc'. injection Hc' as <-. eexists. split; [reflexivity|].
    destruct (fst (ScriptLoad c ScriptContent (env st))) as [h|x]; split;
      intros H; try discriminate; try reflexivity.
    - exists h; reflexivity.
    - destruct H; discriminate. }
  split.
  { intros x Hx. rewrite Heof. cbn [recovered out]. rewrite Hx. reflexivity. }
  split.
  { intros x Hx. rewrite Hns. cbn [recovered out]. rewrite Hx. reflexivity. }
  split; [|split; [|split]].
  - intros fuel key uniqID expireTime e b Ha Hb.
    rewrite Lock_loop_step, (bind_done _ _ _ _ Ha).
    rewrite (bind_done _ _ _ _ Hb). reflexivity.
  - intros fuel i key uniqID e b Ha Hb.
    rewrite Unlock_loop_step, (bind_done _ _ _ _ Ha). cbn [holds].
    rewrite (recover_discards _ _ _ _ Hb). reflexivity.
  - intros fuel key e b Ha Hb.
    rewrite RLock_loop_step, (bind_done _ _ _ _ Ha). cbn [holds].
    rewrite (recover_discards _ _ _ _ Hb). reflexivity.
  - intros fuel i key e b Ha Hb.
    rewrite RUnlock_loop_step, (bind_done _ _ _ _ Ha). cbn [holds].
    rewrite (recover_discards _ _ _ _ Hb). reflexivity.
Qed.

(** C5.  Given fuel for ten iterations, [Unlock] and [RUnlock] end, and
    they invoke the release procedure at most ten times.  When the call did
    not panic and no attempt came back with the succeeded flag, it returned
    normally after exactly ten attempts, having slept nine times: between
    attempts, not after the last one. *)
Theorem C5_release_gives_up_after_ten fuel key uniqID (st : state) :
  (10 <= fuel)%nat ->
  (out (Unlock fuel key uniqID st) <> OutOfFuel /\
   (attempts (log (Unlock fuel key uniqID st)) <= 10)%nat /\
   ((forall p, out (Unlock fuel key uniqID st) <> Panicked p) ->
    Forall (fun e => succeeded e = false) (log (Unlock fuel key uniqID st)) ->
    out (Unlock fuel key uniqID st) = Done tt /\
    attempts (log (Unlock fuel key uniqID st)) = 10%nat /\
    sleeps (log (Unlock fuel key uniqID st)) = 9%nat))
  /\
  (out (RUnlock fuel key st) <> OutOfFuel /\
   (attempts (log (RUnlock fuel key st)) <= 10)%nat /\
   ((forall p, out (RUnlock fuel key st) <> Panicked p) ->
    Forall (fun e => succeeded e = false) (log (RUnlock fuel key st)) ->
    out (RUnlock fuel key st) = Done tt /\
    attempts (log (RUnlock fuel key st)) = 10%nat /\
    sleeps (log (RUnlock fuel key st)) = 9%nat)).
Proof.
  intros Hfuel.
  assert (Hspell : forall r : run unit,
            release_bound 10 0 (10 <= fuel)%nat r ->
            out r <> OutOfFuel /\ (attempts (log r) <= 10)%nat /\
            ((forall p, out r <> Panicked p) ->
             Forall (fun e => succeeded e = false) (log r) ->
             out r = Done tt /\ attempts (log r) = 10%nat /\
             sleeps (log r) = 9%nat)).
  { intros r (H1 & H2 & H3). split; [auto|]. split; [lia|].
    intros Hp Hall.
    assert (Hd : out r = Done tt).
    { specialize (H2 Hfuel). destruct (out r) as [[]|p|];
        [reflexivity|destruct (Hp p eq_refl)|contradiction]. }
    destruct (H3 Hd Hall). repeat split; [exact Hd|lia|lia]. }
  split; apply Hspell.
  - apply (Unlock_loop_bound fuel 10 key uniqID st). lia.
  - unfold RUnlock. destruct (len key <=? 0).
    + unfold release_bound. cbn. split; [lia|split; discriminate].
    + apply (RUnlock_loop_bound fuel 10 key st). lia.
Qed.

(** C6.  Every LOCK request of a call to [Lock] carries the lease: the
    decimal text of 5 when the caller's lease is zero or negative, the
    decimal text of the caller's lease when it is positive.  With a client
    in place the first thing [Lock] does is such a request. *)
Theorem C6_lease_is_normalised fuel key uniqID expireTime (st : state) :
  (expireTime <= 0 ->
   Forall (asks [key; LockCmd] [uniqID; "5"])
     (log (Lock fuel key uniqID expireTime st)))
  /\ (0 < expireTime ->
      Forall (asks [key; LockCmd] [uniqID; Itoa expireTime])
        (log (Lock fuel key uniqID expireTime st)))
  /\ (forall c, Redis st = Some c ->
        exists r rest,
          log (Lock (S fuel) key uniqID expireTime st) =
          EvEvalSha c (shaHashID st) [key; LockCmd]
            [uniqID; Itoa (if expireTime <=? 0 then 5 else expireTime)] r
          :: rest).
Proof.
  assert (Hguard : (len key <? 0) = false).
  { apply Z.ltb_ge. unfold len. lia. }
  split; [|split].
  - intros He. unfold Lock. rewrite Hguard.
    destruct (Z.leb_spec expireTime 0); [|lia].
    apply (Lock_loop_within fuel key uniqID 5 st).
  - intros He. unfold Lock. rewrite Hguard.
    destruct (Z.leb_spec expireTime 0); [lia|].
    apply (Lock_loop_within fuel key uniqID expireTime st).
  - intros c Hc. unfold Lock. rewrite Hguard. rewrite Lock_loop_step.
    match goal with
    | |- context [log (bind ?m ?k st)] =>
        destruct (bind_log_prefix m k st) as [rest Hrest]
    end.
    rewrite Hrest.
    destruct (sendLock_first (shaHashID st) key uniqID LockCmd
                (if expireTime <=? 0 then 5 else expireTime) st c eq_refl Hc)
      as [r Hr].
    rewrite Hr. exists r, rest. reflexivity.
Qed.

(** C7.  [DoInit] goes on to the server exactly for the three option
    shapes, through the client built from them, and returns the error
    [unsupported options] for anything else without touching anything.
    The script is loaded only in a run whose ping came back without error.
    [Init] returns normally only after a ping and a script load that both
    succeeded; in every other case it panics. *)
Theorem C7_initialisation (o : optObj) (st : state) :
  (dial o = None ->
   DoInit o st =
   {| out := Done (Some (errors_New "unsupported options"));
      final := st; log := [] |})
  /\ (forall c, dial o = Some c ->
        exists r rest, log (DoInit o st) = EvPing c r :: rest)
  /\ ((exists opt, o = OptionsPtr opt /\ dial o = Some (NewClient opt)) \/
      (exists opt, o = FailoverOptionsPtr opt /\
                   dial o = Some (NewFailoverClient opt)) \/
      (exists opt, o = ClusterOptionsPtr opt /\
                   dial o = Some (NewClusterClient opt)) \/
      dial o = None)
  /\ (forall c script r,
        In (EvScriptLoad c script r) (log (DoInit o st)) ->
        log (DoInit o st) = [EvPing c None; EvScriptLoad c script r] /\
        script = ScriptContent)
  /\ (out (Init o st) = Done tt \/
      out (Init o st) = Panicked (PanicString "redis client init "))
  /\ (out (Init o st) = Done tt <->
      exists c hashID,
        dial o = Some c /\
        log (Init o st)
          = [EvPing c None; EvScriptLoad c ScriptContent (inl hashID)])
  /\ (forall err, out (DoInit o st) = Done (Some err) ->
        out (Init o st) = Panicked (PanicString "redis client init ")).
Proof.
  assert (HInit : Init o st =
          {| out := match out (DoInit o st) with
                    | Done None => Done tt
                    | Done (Some _) => Panicked (PanicString "redis client init ")
                    | Panicked p => Panicked p
                    | OutOfFuel => OutOfFuel
                    end;
             final := final (DoInit o st); log := log (DoInit o st) |}).
  { unfold Init, bind. destruct (out (DoInit o st)) as [[e|]|p|];
      cbn [ret panic out final log]; rewrite ?app_nil_r; reflexivity. }
  rewrite HInit. cbn [out log]. rewrite DoInit_run.
  split; [intros Hd; rewrite Hd; reflexivity|].
  split.
  { intros c Hc. rewrite Hc. cbv zeta.
    destruct (fst (Ping c (env st))); eexists; eexists; reflexivity. }
  split.
  { destruct o; cbn [dial]; eauto 7. }
  destruct (dial o) as [c|]; cbv zeta.
  - destruct (fst (Ping c (env st))) as [perr|]; cbn [out log].
    + split; [intros c' s' r' [H|[]]; discriminate|].
      split; [right; reflexivity|].
      split; [|intros; reflexivity].
      split; [discriminate|]. intros (c' & h & _ & H). discriminate.
    + split.
      { intros c' s' r' [H|[H|[]]]; [discriminate|].
        injection H as <- <- <-. split; reflexivity. }
      destruct (fst (ScriptLoad c ScriptContent (snd (Ping c (env st)))))
        as [h|lerr].
      * split; [left; reflexivity|].
        split; [|intros err H; discriminate].
        split; [intros _; exists c, h; split; reflexivity|reflexivity].
      * split; [right; reflexivity|].
        split; [|intros; reflexivity].
        split; [discriminate|]. intros (c' & h & _ & H). discriminate.
  - cbn [out log]. split; [intros c s' r []|].
    split; [right; reflexivity|].
    split; [|intros; reflexivity].
    split; [discriminate|]. intros (c' & h & H & _). discriminate.
Qed.

(** C9.  [Unlock] does not look at its key.  With an empty key and a
    client in place its first action is an UNLOCK request for the empty
    key; without a client it dies on the nil client, not on the key.
    Every attempt of the call is such a request, and the call stays within
    ten attempts. *)
Theorem C9_Unlock_accepts_empty_key fuel uniqID (st : state) :
  match Redis st with
  | Some c =>
      exists r rest,
        log (Unlock (S fuel) EmptyString uniqID st) =
        EvEvalSha c (shaHashID st) [EmptyString; UnlockCmd] [uniqID] r :: rest
  | None =>
      Unlock (S fuel) EmptyString uniqID st =
      {| out := Panicked nil_dereference; final := st; log := [] |}
  end
  /\ Forall (asks [EmptyString; UnlockCmd] [uniqID])
       (log (Unlock (S fuel) EmptyString uniqID st))
  /\ (attempts (log (Unlock (S fuel) EmptyString uniqID st)) <= 10)%nat.
Proof.
  split; [|split].
  - unfold Unlock. rewrite Unlock_loop_step.
    destruct (Redis st) as [c|] eqn:Hc.
    + match goal with
      | |- context [log (bind ?m ?k st)] =>
          destruct (bind_log_prefix m k st) as [rest Hrest]
      end.
      rewrite Hrest.
      destruct (sendLock_first (shaHashID st) EmptyString uniqID UnlockCmd 0
                  st c eq_refl Hc) as [r Hr].
      rewrite Hr. exists r, rest. reflexivity.
    + unfold bind at 1. rewrite sendLock_run by reflexivity. rewrite Hc.
      reflexivity.
  - apply (Unlock_loop_within (S fuel) 10 EmptyString uniqID st).
  - destruct (Unlock_loop_bound (S fuel) 10 EmptyString uniqID st) as [H _];
      [lia|]. unfold Unlock. lia.
Qed.

(** C10 (as amended).  A run of [DoInit] has one of four shapes.  On an
    unsupported option value nothing changes.  When the ping fails, the
    retained options and the procedure handle are as before.  When the ping
    succeeds and the script load fails, [DoInit] returns the error with the
    retained options already replaced by the new ones, the handle as
    before.  When both succeed, the options are the new ones and the handle
    is the one the load returned.  So the handle changes only after a
    successful script load. *)
Theorem C10_DoInit_state (o : optObj) (st : state) :
  (dial o = None /\
   DoInit o st = {| out := Done (Some (errors_New "unsupported options"));
                    final := st; log := [] |})
  \/ (exists c err,
        dial o = Some c /\
        out (DoInit o st) = Done (Some err) /\
        log (DoInit o st) = [EvPing c (Some err)] /\
        opts (final (DoInit o st)) = opts st /\
        shaHashID (final (DoInit o st)) = shaHashID st)
  \/ (exists c err,
        dial o = Some c /\
        out (DoInit o st) = Done (Some err) /\
        log (DoInit o st)
          = [EvPing c None; EvScriptLoad c ScriptContent (inr err)] /\
        opts (final (DoInit o st)) = o /\
        shaHashID (final (DoInit o st)) = shaHashID st)
  \/ (exists c hashID,
        dial o = Some c /\
        out (DoInit o st) = Done None /\
        log (DoInit o st)
          = [EvPing c None; EvScriptLoad c ScriptContent (inl hashID)] /\
        opts (final (DoInit o st)) = o /\
        shaHashID (final (DoInit o st)) = hashID).
Proof.
  rewrite DoInit_run. destruct (dial o) as [c|]; [|left; split; reflexivity].
  right. cbv zeta. destruct (fst (Ping c (env st))) as [perr|].
  - left. exists c, perr. repeat split.
  - right. destruct (fst (ScriptLoad c ScriptContent (snd (Ping c (env st)))))
      as [h|lerr].
    + right. exists c, h. repeat split.
    + left. exists c, lerr. repeat split.
Qed.

End Claims.

(** * The claims on the scripted store *)

(** C2, instance: the next reply carries an error message and no grant;
    [Lock] and [Unlock] both panic with that message. *)
Lemma C2_precedence_on_refusal :
  out (Lock_loop (W := Scripted.store) 1 "k" "w1" 5 Scripted.refusing)
    = Panicked (PanicString "boom")
  /\ out (Unlock_loop (W := Scripted.store) 1 10 "k" "w1" Scripted.refusing)
       = Panicked (PanicString "boom").
Proof.
  destruct (C2_error_message_precedence (W := Scripted.store)
              0 10 "k" "w1" 5 Scripted.refusing Scripted.refused eq_refl)
    as [HL HU].
  split.
  - rewrite HL by reflexivity. reflexivity.
  - rewrite HU by reflexivity. reflexivity.
Defined.

(** C2, as stated, fails for [Unlock]: the reply decodes to a result whose
    error message is non-empty and whose succeeded flag is set, and
    [Unlock] returns normally. *)
Lemma C2_Unlock_returns_despite_error_message :
  out (sendLock (W := Scripted.store) "sha-0" "k" "w1" UnlockCmd 0
         Scripted.granting_with_message)
    = Done (Some Scripted.granted_with_message, None)
  /\ IsError Scripted.granted_with_message = true
  /\ out (Unlock (W := Scripted.store) 10 "k" "w1"
            Scripted.granting_with_message) = Done tt.
Proof. vm_compute. repeat split. Qed.

(** C3, instance: a domain error on the last try; [RUnlock]'s loop
    returns normally. *)
Lemma C3_last_try_returns :
  out (RUnlock_loop (W := Scripted.store) 1 1 "k" Scripted.refusing) = Done tt.
Proof.
  destruct (C3_RUnlock_retries_domain_errors (W := Scripted.store)
              0 1 "k" Scripted.refusing Scripted.refused eq_refl)
    as [H _]; [discriminate|reflexivity|].
  rewrite H. reflexivity.
Defined.

(** C3, as stated, fails: ten replies in a row carry an error message and
    [RUnlock], called with a non-empty key, tries ten times and returns
    normally instead of aborting. *)
Lemma C3_RUnlock_survives_domain_errors :
  out (sendLock (W := Scripted.store) "sha-0" "k" EmptyString RUnlockCmd 0
         Scripted.refusing_ten_times)
    = Done (Some Scripted.refused, None)
  /\ IsError Scripted.refused = true
  /\ out (RUnlock (W := Scripted.store) 10 "k" Scripted.refusing_ten_times)
       = Done tt
  /\ attempts (log (RUnlock (W := Scripted.store) 10 "k"
                      Scripted.refusing_ten_times)) = 10%nat.
Proof. vm_compute. repeat split. Qed.

(** C5, instance: the lock is reported held every time; both release
    calls give up after ten attempts and nine sleeps. *)
Lemma C5_gives_up_on_busy_store :
  (out (Unlock (W := Scripted.store) 10 "k" "w1" Scripted.always_busy) = Done tt
   /\ attempts (log (Unlock (W := Scripted.store) 10 "k" "w1"
                       Scripted.always_busy)) = 10%nat
   /\ sleeps (log (Unlock (W := Scripted.store) 10 "k" "w1"
                     Scripted.always_busy)) = 9%nat)
  /\
  (out (RUnlock (W := Scripted.store) 10 "k" Scripted.always_busy) = Done tt
   /\ attempts (log (RUnlock (W := Scripted.store) 10 "k"
                       Scripted.always_busy)) = 10%nat
   /\ sleeps (log (RUnlock (W := Scripted.store) 10 "k"
                     Scripted.always_busy)) = 9%nat).
Proof.
  destruct (C5_release_gives_up_after_ten (W := Scripted.store)
              10 "k" "w1" Scripted.always_busy (le_n 10))
    as [(_ & _ & HU) (_ & _ & HR)].
  split.
  - apply HU.
    + intros p. vm_compute. discriminate.
    + vm_compute. repeat constructor.
  - apply HR.
    + intros p. vm_compute. discriminate.
    + vm_compute. repeat constructor.
Defined.

(** C8, instance: an error message without the grant; [RLock]'s loop
    sleeps once and runs out of the single iteration it was given. *)
Lemma C8_sleeps_after_refusal :
  log (RLock_loop (W := Scripted.store) 1 "k" Scripted.refusing)
  = [EvEvalSha (NewClient Scripted.single) "sha-0" ["k"; RLockCmd]
       [EmptyString] (Scripted.says Scripted.refused);
     EvSleep 10000000].
Proof.
  destruct (C8_RLock_retries_domain_errors (W := Scripted.store)
              0 "k" Scripted.refusing Scripted.refused eq_refl)
    as [H _]; [reflexivity|].
  rewrite H. reflexivity.
Defined.

(** C8, as stated, fails: the reply carries an error message together
    with the grant, and [RLock] returns at once, with no sleep and no
    second attempt. *)
Lemma C8_RLock_returns_on_flagged_error :
  out (sendLock (W := Scripted.store) "sha-0" "k" EmptyString RLockCmd 0
         Scripted.granting_with_message)
    = Done (Some Scripted.granted_with_message, None)
  /\ IsError Scripted.granted_with_message = true
  /\ out (RLock (W := Scripted.store) 5 "k" Scripted.granting_with_message)
       = Done tt
  /\ log (RLock (W := Scripted.store) 5 "k" Scripted.granting_with_message)
     = [EvEvalSha (NewClient Scripted.single) "sha-0" ["k"; RLockCmd]
          [EmptyString] (Scripted.says Scripted.granted_with_message)].
Proof. vm_compute. repeat split. Qed.

(** C10, as stated, fails: the ping succeeds, the script load fails,
    [DoInit] returns the error, and the retained options are no longer the
    nil they were. *)
Lemma C10_failed_load_replaces_options :
  out (DoInit (W := Scripted.store) (OptionsPtr Scripted.single)
         Scripted.cannot_load)
    = Done (Some "ERR script load failed")
  /\ opts Scripted.cannot_load = NilValue
  /\ opts (final (DoInit (W := Scripted.store) (OptionsPtr Scripted.single)
                    Scripted.cannot_load))
     = OptionsPtr Scripted.single.
Proof. vm_compute. repeat split. Qed.

(** * Further properties of the package *)
Section Further.

Context {W : Store}.

(** ** Relations between start state, log and final state *)
Section Keeps.

Variable R : state -> list event -> state -> Prop.
Hypothesis R_nil : forall st, R st [] st.
Hypothesis R_app :
  forall s l1 s1 l2 s2, R s l1 s1 -> R s1 l2 s2 -> R s (l1 ++ l2) s2.

Lemma keeps_ret {A} (a : A) : keeps R (ret a).
Proof. intros st. apply R_nil. Qed.

Lemma keeps_panic {A} p : keeps R (@panic W A p).
Proof. intros st. apply R_nil. Qed.

Lemma keeps_diverge {A} : keeps R (@diverge W A).
Proof. intros st. apply R_nil. Qed.

Lemma keeps_bind_at {A B} (m : M A) (k : A -> M B) st :
  R st (log (m st)) (final (m st)) ->
  (forall a, keeps R (k a)) ->
  R st (log (bind m k st)) (final (bind m k st)).
Proof.
  intros Hm Hk. unfold bind. destruct (out (m st)) as [a|p|]; cbn [log final];
    [|exact Hm|exact Hm].
  eapply R_app; [exact Hm|apply Hk].
Qed.

Lemma keeps_bind {A B} (m : M A) (k : A -> M B) :
  keeps R m -> (forall a, keeps R (k a)) -> keeps R (bind m k).
Proof. intros Hm Hk st. apply keeps_bind_at; [apply Hm|exact Hk]. Qed.

Hypothesis R_backoff : keeps R backoff.
Hypothesis R_handleError : forall err, keeps R (handleError err).
Hypothesis R_sendLock :
  forall key uniqID lockCmd expireTime st,
    is_command lockCmd = true ->
    R st (log (sendLock (shaHashID st) key uniqID lockCmd expireTime st))
         (final (sendLock (shaHashID st) key uniqID lockCmd expireTime st)).

Lemma keeps_recover err : keeps R (recover err).
Proof.
  destruct err; [|apply keeps_ret].
  apply keeps_bind; [apply R_handleError|intros; apply keeps_ret].
Qed.

Lemma keeps_Lock_loop fuel key uniqID expireTime :
  keeps R (Lock_loop fuel key uniqID expireTime).
Proof.
  induction fuel as [|fuel IH]; [apply keeps_diverge|].
  assert (Hback : keeps R (backoff ;;; Lock_loop fuel key uniqID expireTime))
    by (apply keeps_bind; [exact R_backoff|intros _; exact IH]).
  intros st. rewrite Lock_loop_step.
  apply keeps_bind_at; [apply R_sendLock; reflexivity|].
  intros [res err]. destruct err as [e|].
  - apply keeps_bind; [apply R_handleError|intros _; exact Hback].
  - destruct (holds res IsError).
    + destruct res; [apply keeps_panic|apply keeps_ret].
    + destruct (holds res Success); [apply keeps_ret|exact Hback].
Qed.

Lemma keeps_Unlock_loop fuel i key uniqID :
  keeps R (Unlock_loop fuel i key uniqID).
Proof.
  revert i. induction fuel as [|fuel IH]; intros i; [apply keeps_diverge|].
  intros st. rewrite Unlock_loop_step.
  apply keeps_bind_at; [apply R_sendLock; reflexivity|].
  intros [res err]. destruct (holds res Success); [apply keeps_ret|].
  destruct (holds res IsError).
  { destruct res; [apply keeps_panic|apply keeps_ret]. }
  apply keeps_bind; [apply keeps_recover|intros _].
  destruct (i - 1 <=? 0); [apply keeps_ret|].
  apply keeps_bind; [exact R_backoff|intros _; apply IH].
Qed.

Lemma keeps_RLock_loop fuel key : keeps R (RLock_loop fuel key).
Proof.
  induction fuel as [|fuel IH]; [apply keeps_diverge|].
  intros st. rewrite RLock_loop_step.
  apply keeps_bind_at; [apply R_sendLock; reflexivity|].
  intros [res err]. destruct (holds res Success); [apply keeps_ret|].
  apply keeps_bind; [apply keeps_recover|intros _].
  apply keeps_bind; [exact R_backoff|intros _; apply IH].
Qed.

Lemma keeps_RUnlock_loop fuel i key : keeps R (RUnlock_loop fuel i key).
Proof.
  revert i. induction fuel as [|fuel IH]; intros i; [apply keeps_diverge|].
  intros st. rewrite RUnlock_loop_step.
  apply keeps_bind_at; [apply R_sendLock; reflexivity|].
  intros [res err]. destruct (holds res Success); [apply keeps_ret|].
  apply keeps_bind; [apply keeps_recover|intros _].
  destruct (i - 1 <=? 0); [apply keeps_ret|].
  apply keeps_bind; [exact R_backoff|intros _; apply IH].
Qed.

Lemma keeps_Lock fuel key uniqID expireTime :
  keeps R (Lock fuel key uniqID expireTime).
Proof.
  unfold Lock. destruct (len key <? 0); [apply keeps_panic|].
  apply keeps_Lock_loop.
Qed.

Lemma keeps_RUnlock fuel key : keeps R (RUnlock fuel key).
Proof.
  unfold RUnlock. destruct (len key <=? 0); [apply keeps_panic|].
  apply keeps_RUnlock_loop.
Qed.

End Keeps.

(** ** The handle in force *)

Lemma handle_after_app h l1 l2 :
  handle_after h (l1 ++ l2) = handle_after (handle_after h l1) l2.
Proof.
  revert h. induction l1 as [|e l1 IH]; intros h; [reflexivity|].
  destruct e as [c r|c s [h'|x]|c sha k a r|d]; cbn; apply IH.
Qed.

Lemma uses_handle_app h l1 l2 :
  uses_handle h (l1 ++ l2) <->
  uses_handle h l1 /\ uses_handle (handle_after h l1) l2.
Proof.
  revert h. induction l1 as [|e l1 IH]; intros h; [cbn; tauto|].
  destruct e as [c r|c s [h'|x]|c sha k a r|d]; cbn; rewrite ?IH; tauto.
Qed.

Lemma tracks_handle_nil st : tracks_handle st [] st.
Proof. split; [reflexivity|exact I]. Qed.

Lemma tracks_handle_app s l1 s1 l2 s2 :
  tracks_handle s l1 s1 -> tracks_handle s1 l2 s2 ->
  tracks_handle s (l1 ++ l2) s2.
Proof.
  intros [H1 U1] [H2 U2]. split.
  - rewrite handle_after_app, <- H1. exact H2.
  - apply uses_handle_app. rewrite <- H1. tauto.
Qed.

Lemma tracks_handle_backoff : keeps tracks_handle backoff.
Proof. intros st. rewrite backoff_run. split; [reflexivity|exact I]. Qed.

Lemma tracks_handle_LoadLua : keeps tracks_handle LoadLua.
Proof.
  intros st. rewrite LoadLua_run.
  destruct (Redis st) as [c|]; [|apply tracks_handle_nil].
  cbv zeta. destruct (fst (ScriptLoad c ScriptContent (env st)));
    split; cbn; auto.
Qed.

Lemma tracks_handle_DoInit o : keeps tracks_handle (DoInit o).
Proof.
  intros st. rewrite DoInit_run.
  destruct (dial o) as [c|]; [|apply tracks_handle_nil].
  cbv zeta. destruct (fst (Ping c (env st))); [split; cbn; auto|].
  destruct (fst (ScriptLoad c ScriptContent (snd (Ping c (env st)))));
    split; cbn; auto.
Qed.

Lemma tracks_handle_handleError err : keeps tracks_handle (handleError err).
Proof.
  intros st. rewrite handleError_run.
  destruct err as [e|]; [|apply tracks_handle_nil].
  destruct (e =? EofError)%string; [apply (tracks_handle_DoInit (opts st) st)|].
  destruct (e =? NoScriptError)%string;
    [apply (tracks_handle_LoadLua st)|apply tracks_handle_nil].
Qed.

Lemma tracks_handle_sendLock key uniqID lockCmd expireTime st :
  is_command lockCmd = true ->
  tracks_handle st
    (log (sendLock (shaHashID st) key uniqID lockCmd expireTime st))
    (final (sendLock (shaHashID st) key uniqID lockCmd expireTime st)).
Proof.
  intros Hcmd. rewrite sendLock_run by exact Hcmd.
  destruct (Redis st) as [c|]; [|apply tracks_handle_nil].
  split; cbn; auto.
Qed.

(** ** The connection *)

Lemma keeps_connection_nil st : keeps_connection st [] st.
Proof. split; [reflexivity|]. split; [auto|]. intros; split; auto. Qed.

Lemma keeps_connection_app s l1 s1 l2 s2 :
  keeps_connection s l1 s1 -> keeps_connection s1 l2 s2 ->
  keeps_connection s (l1 ++ l2) s2.
Proof.
  intros (O1 & N1 & C1) (O2 & N2 & C2). split; [congruence|].
  split; [auto|]. intros c Hc Hd.
  destruct (C1 c Hc Hd) as [Hc1 F1].
  destruct (C2 c Hc1 ltac:(rewrite O1; exact Hd)) as [Hc2 F2].
  split; [exact Hc2|apply Forall_app; auto].
Qed.

Lemma keeps_connection_backoff : keeps keeps_connection backoff.
Proof.
  intros st. rewrite backoff_run. split; [reflexivity|]. split; [auto|].
  intros c Hc _. split; [exact Hc|repeat constructor].
Qed.

Lemma keeps_connection_LoadLua : keeps keeps_connection LoadLua.
Proof.
  intros st. rewrite LoadLua_run.
  destruct (Redis st) as [c|] eqn:HR; [|apply keeps_connection_nil].
  split; [reflexivity|]. split; [discriminate|].
  intros c' Hc' _. rewrite HR in Hc'. injection Hc' as <-.
  split; [reflexivity|].
  repeat constructor.
Qed.

Lemma keeps_connection_reinit st :
  keeps_connection st (log (DoInit (opts st) st)) (final (DoInit (opts st) st)).
Proof.
  rewrite DoInit_run.
  destruct (dial (opts st)) as [c|] eqn:Hd; [|apply keeps_connection_nil].
  cbv zeta. destruct (fst (Ping c (env st))).
  - split; [reflexivity|]. split; [discriminate|].
    intros c' _ Hc'. rewrite Hd in Hc'. injection Hc' as <-.
    split; [reflexivity|].
    repeat constructor.
  - split; [reflexivity|]. split; [discriminate|].
    intros c' _ Hc'. rewrite Hd in Hc'. injection Hc' as <-.
    split; [reflexivity|].
    repeat constructor.
Qed.

Lemma keeps_connection_handleError err :
  keeps keeps_connection (handleError err).
Proof.
  intros st. rewrite handleError_run.
  destruct err as [e|]; [|apply keeps_connection_nil].
  destruct (e =? EofError)%string; [apply keeps_connection_reinit|].
  destruct (e =? NoScriptError)%string;
    [apply (keeps_connection_LoadLua st)|apply keeps_connection_nil].
Qed.

Lemma keeps_connection_sendLock key uniqID lockCmd expireTime st :
  is_command lockCmd = true ->
  keeps_connection st
    (log (sendLock (shaHashID st) key uniqID lockCmd expireTime st))
    (final (sendLock (shaHashID st) key uniqID lockCmd expireTime st)).
Proof.
  intros Hcmd. rewrite sendLock_run by exact Hcmd.
  destruct (Redis st) as [c|] eqn:HR; [|apply keeps_connection_nil].
  split; [reflexivity|]. split; [cbn; congruence|].
  intros c' Hc' _. rewrite HR in Hc'. injection Hc' as <-.
  split; [exact HR|].
  repeat constructor.
Qed.

(** ** One attempt, further *)

Lemma sendLock_unknown sha key uniqID lockCmd expireTime st :
  is_command lockCmd = false ->
  sendLock sha key uniqID lockCmd expireTime st =
  {| out := Panicked not_a_string; final := st; log := [] |}.
Proof.
  unfold is_command, sendLock. intros H.
  apply orb_false_elim in H. destruct H as [H HRU].
  apply orb_false_elim in H. destruct H as [H HR].
  apply orb_false_elim in H. destruct H as [HL HU].
  rewrite HL, HU, HR, HRU. reflexivity.
Qed.

Lemma sendLock_returns sha key uniqID lockCmd expireTime st :
  is_command lockCmd = true ->
  match out (sendLock sha key uniqID lockCmd expireTime st) with
  | Done (res, err) =>
      exists ev,
        log (sendLock sha key uniqID lockCmd expireTime st) = [ev] /\
        is_attempt ev = true /\ is_sleep ev = false /\
        response_of ev = res /\
        ((exists r, res = Some r /\ err = None) \/
         (res = None /\ exists x, err = Some x))
  | Panicked p =>
      (p = nil_dereference /\ Redis st = None /\
       log (sendLock sha key uniqID lockCmd expireTime st) = []) \/
      (p = not_a_string /\
       exists ev, log (sendLock sha key uniqID lockCmd expireTime st) = [ev] /\
                  is_attempt ev = true /\ is_sleep ev = false /\
                  reply_not_string ev)
  | OutOfFuel => False
  end.
Proof.
  intros Hcmd. rewrite sendLock_run by exact Hcmd.
  destruct (Redis st) as [c|]; cbn [out log]; [|left; repeat split].
  cbv zeta.
  destruct (fst (EvalSha c sha [key; lockCmd]
                   (request_args lockCmd uniqID expireTime) (env st)))
    as [[ |s|n]|err] eqn:Hr; cbn [interpret].
  - right. split; [reflexivity|]. eexists. repeat split.
  - destruct (Unmarshal s) as [res|err] eqn:Hu; eexists;
      (split; [reflexivity|]); cbn [is_attempt is_sleep response_of decoded];
      rewrite Hu; repeat split.
    + left. eexists; split; reflexivity.
    + right. split; [reflexivity|]. eexists; reflexivity.
  - right. split; [reflexivity|]. eexists. repeat split.
  - eexists. split; [reflexivity|]. repeat split.
    right. split; [reflexivity|]. eexists; reflexivity.
Qed.

(** ** How the loops end *)

Lemma ends_with_single (P : event -> Prop) ev : P ev -> ends_with P ([ev] ++ []).
Proof. intros H. exists [], ev. split; [reflexivity|exact H]. Qed.

Lemma ends_with_app (P : event -> Prop) l0 l :
  ends_with P l -> ends_with P (l0 ++ l).
Proof.
  intros (l' & ev & -> & H). exists (l0 ++ l')%list, ev.
  split; [apply app_assoc|exact H].
Qed.

Lemma acquire_retry PD PP fuel (rest : run unit) ev lh d :
  is_attempt ev = true -> is_sleep ev = false -> Forall is_recovery lh ->
  acquire_profile PD PP fuel rest ->
  acquire_profile PD PP (S fuel)
    {| out := out rest; final := final rest;
       log := [ev] ++ lh ++ [EvSleep d] ++ log rest |}.
Proof.
  intros Ha Hs Hrec H. destruct (recovery_counts _ Hrec) as (Ra & Rs & _).
  unfold acquire_profile in *. cbn [out log].
  rewrite !attempts_app, !sleeps_app, attempts_single, sleeps_single,
    Ha, Hs, Ra, Rs.
  change (attempts [EvSleep d]) with 0%nat.
  change (sleeps [EvSleep d]) with 1%nat.
  destruct (out rest) as [[]|[m|w]|].
  - destruct H as [He Hc]. split; [|lia].
    apply (ends_with_app _ [ev]), (ends_with_app _ lh),
      (ends_with_app _ [EvSleep d]). exact He.
  - destruct H as [He Hc]. split; [|lia].
    apply (ends_with_app _ [ev]), (ends_with_app _ lh),
      (ends_with_app _ [EvSleep d]). exact He.
  - exact I.
  - destruct H. split; lia.
Qed.

Lemma acquire_stop PD PP fuel ev (o : outcome unit) st :
  is_attempt ev = true -> is_sleep ev = false ->
  match o with
  | Done _ => PD ev
  | Panicked (PanicString m) => PP m ev
  | Panicked (RuntimeError _) => True
  | OutOfFuel => False
  end ->
  acquire_profile PD PP fuel {| out := o; final := st; log := [ev] ++ [] |}.
Proof.
  intros Ha Hs H. unfold acquire_profile. cbn [out log app].
  rewrite attempts_single, sleeps_single, Ha, Hs.
  destruct o as [[]|[m|w]|]; try exact I; try contradiction;
    (split; [apply (ends_with_single _ ev); exact H|reflexivity]).
Qed.

Lemma Lock_loop_profile fuel key uniqID expireTime st :
  acquire_profile granted_response error_response fuel
    (Lock_loop fuel key uniqID expireTime st).
Proof.
  revert st. induction fuel as [|fuel IH]; intros st; [split; reflexivity|].
  rewrite Lock_loop_step.
  pose proof (sendLock_returns (shaHashID st) key uniqID LockCmd expireTime st
                eq_refl) as Hat.
  destruct (out (sendLock (shaHashID st) key uniqID LockCmd expireTime st))
    as [[res err]|p|] eqn:Ha; [| |contradiction].
  - rewrite (bind_done _ _ _ _ Ha).
    destruct Hat as (ev & Hlog & Hatt & Hsl & Hresp & Hshape). rewrite Hlog.
    destruct err as [e|].
    + destruct (handleError_within (Some e)
                  (final (sendLock (shaHashID st) key uniqID LockCmd expireTime st)))
        as [Hrec Hout].
      destruct (out (handleError (Some e)
                  (final (sendLock (shaHashID st) key uniqID LockCmd expireTime st))))
        as [b|p|] eqn:Hh; [| |contradiction].
      * rewrite (bind_done _ _ _ _ Hh).
        rewrite (bind_done _ _ _ tt) by (rewrite backoff_run; reflexivity).
        cbn [out final log]. rewrite backoff_run. cbn [log final].
        apply acquire_retry; auto.
      * rewrite (bind_panicked _ _ _ _ Hh). unfold acquire_profile.
        cbn [out]. destruct p; [contradiction|exact I].
    + destruct Hshape as [(r & -> & _)|(_ & x & Hx)]; [|discriminate].
      cbn [holds]. destruct (IsError r) eqn:HE.
      { apply acquire_stop; auto. exists r. auto. }
      destruct (Success r) eqn:HS.
      { apply acquire_stop; auto. exists r. auto. }
      rewrite (bind_done _ _ _ tt) by (rewrite backoff_run; reflexivity).
      cbn [out final log]. rewrite backoff_run. cbn [log final].
      apply (acquire_retry _ _ fuel _ ev []); auto.
  - rewrite (bind_panicked _ _ _ _ Ha). unfold acquire_profile. cbn [out].
    destruct Hat as [(-> & _)|(-> & _)]; exact I.
Qed.

Lemma RLock_loop_profile fuel key st :
  acquire_profile flagged_response (fun _ _ => False) fuel
    (RLock_loop fuel key st).
Proof.
  revert st. induction fuel as [|fuel IH]; intros st; [split; reflexivity|].
  rewrite RLock_loop_step.
  pose proof (sendLock_returns (shaHashID st) key EmptyString RLockCmd 0 st
                eq_refl) as Hat.
  destruct (out (sendLock (shaHashID st) key EmptyString RLockCmd 0 st))
    as [[res err]|p|] eqn:Ha; [| |contradiction].
  - rewrite (bind_done _ _ _ _ Ha).
    destruct Hat as (ev & Hlog & Hatt & Hsl & Hresp & Hshape). rewrite Hlog.
    destruct (holds res Success) eqn:HS.
    { apply acquire_stop; auto. destruct res as [r|]; [|discriminate].
      exists r. auto. }
    destruct (recover_within err
                (final (sendLock (shaHashID st) key EmptyString RLockCmd 0 st)))
      as [Hrec Hout].
    destruct (out (recover err
                (final (sendLock (shaHashID st) key EmptyString RLockCmd 0 st))))
      as [[]|p|] eqn:Hh; [| |contradiction].
    + rewrite (bind_done _ _ _ _ Hh).
      rewrite (bind_done _ _ _ tt) by (rewrite backoff_run; reflexivity).
      cbn [out final log]. rewrite backoff_run. cbn [log final].
      apply acquire_retry; auto.
    + rewrite (bind_panicked _ _ _ _ Hh). unfold acquire_profile.
      cbn [out]. destruct p; [contradiction|exact I].
  - rewrite (bind_panicked _ _ _ _ Ha). unfold acquire_profile. cbn [out].
    destruct Hat as [(-> & _)|(-> & _)]; exact I.
Qed.

Lemma release_exit_tail PP (L : M unit) err i ev st :
  1 <= i -> is_attempt ev = true ->
  (1 <= i - 1 -> forall st', release_exit PP (i - 1) (L st')) ->
  release_exit PP i
    {| out := out ((recover err ;;;
                    if i - 1 <=? 0 then ret tt else backoff ;;; L) st);
       final := final ((recover err ;;;
                        if i - 1 <=? 0 then ret tt else backoff ;;; L) st);
       log := [ev] ++ log ((recover err ;;;
                            if i - 1 <=? 0 then ret tt else backoff ;;; L) st) |}.
Proof.
  intros Hi Hatt HL.
  destruct (recover_within err st) as [Hrec Hout].
  destruct (recovery_counts _ Hrec) as (Ra & Rs & _).
  destruct (out (recover err st)) as [[]|p|] eqn:Hr; [| |contradiction].
  - rewrite (bind_done _ _ _ _ Hr). unfold release_exit. cbn [out log].
    destruct (Z.leb_spec (i - 1) 0) as [Hle|Hgt].
    + cbn [ret out log]. right.
      rewrite !attempts_app, attempts_single, Hatt, Ra. cbn. lia.
    + rewrite (bind_done _ _ _ tt) by (rewrite backoff_run; reflexivity).
      cbn [out log]. rewrite backoff_run. cbn [log final].
      specialize (HL ltac:(lia)
                    (set_env (snd (Rand 10 20 (env (final (recover err st)))))
                       (final (recover err st)))).
      unfold release_exit in HL.
      destruct (out (L _)) as [[]|[m|w]|]; try exact I.
      * destruct HL as [He|Hn].
        -- left. apply (ends_with_app _ [ev]), ends_with_app,
             (ends_with_app _ [EvSleep _]). exact He.
        -- right. rewrite !attempts_app, attempts_single, Hatt, Ra, Hn.
           change (attempts [EvSleep _]) with 0%nat. lia.
      * apply (ends_with_app _ [ev]), ends_with_app,
          (ends_with_app _ [EvSleep _]). exact HL.
  - rewrite (bind_panicked _ _ _ _ Hr). unfold release_exit. cbn [out].
    destruct p; [contradiction|exact I].
Qed.

Lemma Unlock_loop_exit fuel :
  forall i key uniqID st,
    1 <= i ->
    release_exit refusal_response i (Unlock_loop fuel i key uniqID st).
Proof.
  induction fuel as [|fuel IH]; intros i key uniqID st Hi; [exact I|].
  rewrite Unlock_loop_step.
  pose proof (sendLock_returns (shaHashID st) key uniqID UnlockCmd 0 st eq_refl)
    as Hat.
  destruct (out (sendLock (shaHashID st) key uniqID UnlockCmd 0 st))
    as [[res err]|p|] eqn:Ha; [| |contradiction].
  - rewrite (bind_done _ _ _ _ Ha).
    destruct Hat as (ev & Hlog & Hatt & Hsl & Hresp & Hshape). rewrite Hlog.
    destruct (holds res Success) eqn:HS.
    { left. apply ends_with_single. destruct res as [r|]; [|discriminate].
      exists r. auto. }
    destruct (holds res IsError) eqn:HE.
    { destruct res as [r|]; [|discriminate].
      apply ends_with_single. exists r. auto. }
    apply release_exit_tail; auto.
  - rewrite (bind_panicked _ _ _ _ Ha). unfold release_exit. cbn [out].
    destruct Hat as [(-> & _)|(-> & _)]; exact I.
Qed.

Lemma RUnlock_loop_exit fuel :
  forall i key st,
    1 <= i ->
    release_exit (fun _ _ => False) i (RUnlock_loop fuel i key st).
Proof.
  induction fuel as [|fuel IH]; intros i key st Hi; [exact I|].
  rewrite RUnlock_loop_step.
  pose proof (sendLock_returns (shaHashID st) key EmptyString RUnlockCmd 0 st
                eq_refl) as Hat.
  destruct (out (sendLock (shaHashID st) key EmptyString RUnlockCmd 0 st))
    as [[res err]|p|] eqn:Ha; [| |contradiction].
  - rewrite (bind_done _ _ _ _ Ha).
    destruct Hat as (ev & Hlog & Hatt & Hsl & Hresp & Hshape). rewrite Hlog.
    destruct (holds res Success) eqn:HS.
    { left. apply ends_with_single. destruct res as [r|]; [|discriminate].
      exists r. auto. }
    apply release_exit_tail; auto.
  - rewrite (bind_panicked _ _ _ _ Ha). unfold release_exit. cbn [out].
    destruct Hat as [(-> & _)|(-> & _)]; exact I.
Qed.

(** ** With a client in place *)

Lemma alive_ret {A} (a : A) : alive (ret a).
Proof. intros st H. split; [exact H|]. intros w Hw. discriminate. Qed.

Lemma alive_panic_string {A} m : alive (@panic W A (PanicString m)).
Proof. intros st H. split; [exact H|]. intros w Hw. discriminate. Qed.

Lemma alive_diverge {A} : alive (@diverge W A).
Proof. intros st H. split; [exact H|]. intros w Hw. discriminate. Qed.

Lemma alive_bind {A B} (m : M A) (k : A -> M B) :
  alive m -> (forall a, alive (k a)) -> alive (bind m k).
Proof.
  intros Hm Hk st Hst. destruct (Hm st Hst) as [Hf Hp]. unfold bind.
  destruct (out (m st)) as [a|p|] eqn:Ho; cbn [out final].
  - apply (Hk a (final (m st)) Hf).
  - split; [exact Hf|]. intros w Hw. injection Hw as ->. apply Hp. reflexivity.
  - split; [exact Hf|]. intros w Hw. discriminate.
Qed.

Lemma alive_gets {A} (f : state -> A) : alive (gets f).
Proof. intros st H. split; [exact H|]. intros w Hw. discriminate. Qed.

Lemma alive_backoff : alive backoff.
Proof.
  intros st H. rewrite backoff_run. split; [exact H|]. intros w Hw. discriminate.
Qed.

Lemma alive_sendLock sha key uniqID lockCmd expireTime :
  alive (sendLock sha key uniqID lockCmd expireTime).
Proof.
  intros st H. destruct (is_command lockCmd) eqn:Hcmd.
  - rewrite sendLock_run by exact Hcmd.
    destruct (Redis st) as [c|] eqn:HR; [|contradiction].
    cbv zeta. cbn [out final]. split; [cbn; congruence|].
    intros w Hw.
    destruct (fst (EvalSha c sha [key; lockCmd]
                     (request_args lockCmd uniqID expireTime) (env st)))
      as [[ |s|n]|x]; cbn [interpret] in Hw;
      try (symmetry; exact (f_equal (fun o => match o with
                                              | Panicked p => p
                                              | _ => not_a_string
                                              end) Hw));
      try discriminate.
    destruct (Unmarshal s); discriminate.
  - rewrite sendLock_unknown by exact Hcmd. split; [exact H|].
    intros w Hw. injection Hw as <-. reflexivity.
Qed.

Lemma alive_handleError err : alive (handleError err).
Proof.
  intros st H. rewrite handleError_run.
  destruct err as [e|]; [|apply (alive_ret false st H)].
  destruct (e =? EofError)%string.
  - rewrite DoInit_run. destruct (dial (opts st)) as [c|].
    + cbv zeta. destruct (fst (Ping c (env st))); cbn.
      * split; [discriminate|]. intros w Hw; discriminate.
      * split; [discriminate|]. intros w Hw.
        destruct (fst (ScriptLoad c ScriptContent (snd (Ping c (env st)))));
          discriminate.
    + cbn. split; [exact H|]. intros w Hw; discriminate.
  - destruct (e =? NoScriptError)%string; [|apply (alive_ret false st H)].
    rewrite LoadLua_run. destruct (Redis st) as [c|] eqn:HR; [|contradiction].
    cbn. split; [discriminate|]. intros w Hw.
    destruct (fst (ScriptLoad c ScriptContent (env st))); discriminate.
Qed.

Lemma alive_recover err : alive (recover err).
Proof.
  destruct err; [|apply alive_ret].
  apply alive_bind; [apply alive_handleError|intros; apply alive_ret].
Qed.

Lemma alive_Lock_loop fuel key uniqID expireTime :
  alive (Lock_loop fuel key uniqID expireTime).
Proof.
  induction fuel as [|fuel IH]; [apply alive_diverge|]. cbn [Lock_loop].
  assert (Hback : alive (backoff ;;; Lock_loop fuel key uniqID expireTime))
    by (apply alive_bind; [apply alive_backoff|intros _; exact IH]).
  apply alive_bind; [apply alive_gets|intros sha].
  apply alive_bind; [apply alive_sendLock|].
  intros [res err]. destruct err as [e|].
  - apply alive_bind; [apply alive_handleError|intros _; exact Hback].
  - destruct (holds res IsError).
    + destruct res; [apply alive_panic_string|apply alive_ret].
    + destruct (holds res Success); [apply alive_ret|exact Hback].
Qed.

Lemma alive_Unlock_loop fuel i key uniqID :
  alive (Unlock_loop fuel i key uniqID).
Proof.
  revert i. induction fuel as [|fuel IH]; intros i; [apply alive_diverge|].
  cbn [Unlock_loop].
  apply alive_bind; [apply alive_gets|intros sha].
  apply alive_bind; [apply alive_sendLock|].
  intros [res err]. destruct (holds res Success); [apply alive_ret|].
  destruct (holds res IsError).
  { destruct res; [apply alive_panic_string|apply alive_ret]. }
  apply alive_bind; [apply (alive_recover err)|intros _].
  cbv zeta. destruct (i - 1 <=? 0); [apply alive_ret|].
  apply alive_bind; [apply alive_backoff|intros _; apply IH].
Qed.

Lemma alive_RLock_loop fuel key : alive (RLock_loop fuel key).
Proof.
  induction fuel as [|fuel IH]; [apply alive_diverge|]. cbn [RLock_loop].
  apply alive_bind; [apply alive_gets|intros sha].
  apply alive_bind; [apply alive_sendLock|].
  intros [res err]. destruct (holds res Success); [apply alive_ret|].
  apply alive_bind; [apply (alive_recover err)|intros _].
  apply alive_bind; [apply alive_backoff|intros _; apply IH].
Qed.

Lemma alive_RUnlock_loop fuel i key : alive (RUnlock_loop fuel i key).
Proof.
  revert i. induction fuel as [|fuel IH]; intros i; [apply alive_diverge|].
  cbn [RUnlock_loop].
  apply alive_bind; [apply alive_gets|intros sha].
  apply alive_bind; [apply alive_sendLock|].
  intros [res err]. destruct (holds res Success); [apply alive_ret|].
  apply alive_bind; [apply (alive_recover err)|intros _].
  cbv zeta. destruct (i - 1 <=? 0); [apply alive_ret|].
  apply alive_bind; [apply alive_backoff|intros _; apply IH].
Qed.

(** ** The first request of each operation *)

Lemma first_request (m : M (option responseLock * option error))
  (k : option responseLock * option error -> M unit) st ev :
  log (m st) = [ev] -> exists rest, log (bind m k st) = ev :: rest.
Proof.
  intros H. destruct (bind_log_prefix m k st) as [rest Hrest].
  rewrite Hrest, H. exists rest. reflexivity.
Qed.

Lemma len_positive key : key <> EmptyString -> (len key <=? 0) = false.
Proof.
  intros H. apply Z.leb_gt. destruct key; [contradiction|].
  unfold len. cbn [String.length]. lia.
Qed.

Lemma len_not_negative key : (len key <? 0) = false.
Proof. apply Z.ltb_ge. unfold len. lia. Qed.

(** ** Fuel beyond what a run needs *)

Lemma bind_ext_at {A B} (m : M A) (k k' : A -> M B) st :
  (forall a, out (m st) = Done a ->
             k a (final (m st)) = k' a (final (m st))) ->
  bind m k st = bind m k' st.
Proof.
  intros H. unfold bind. destruct (out (m st)) as [a|p|]; [|reflexivity..].
  rewrite (H a eq_refl). reflexivity.
Qed.

Lemma finishes_bind {A B} (m : M A) (k : A -> M B) st a :
  finishes (bind m k st) -> out (m st) = Done a ->
  finishes (k a (final (m st))).
Proof. intros H Ha. rewrite (bind_done _ _ _ _ Ha) in H. exact H. Qed.



Lemma Unlock_loop_more_fuel key uniqID fuel :
  forall i st,
    finishes (Unlock_loop fuel i key uniqID st) ->
    Unlock_loop (S fuel) i key uniqID st = Unlock_loop fuel i key uniqID st.
Proof.
  induction fuel as [|fuel IH]; intros i st H; [destruct H; reflexivity|].
  rewrite (Unlock_loop_step (S fuel)), (Unlock_loop_step fuel).
  rewrite Unlock_loop_step in H.
  apply bind_ext_at. intros [res err] Ha.
  pose proof (finishes_bind _ _ _ _ H Ha) as H1. cbn beta iota in H1.
  destruct (holds res Success); [reflexivity|].
  destruct (holds res IsError); [reflexivity|].
  apply bind_ext_at. intros u Hb.
  pose proof (finishes_bind _ _ _ _ H1 Hb) as H2. cbn beta in H2.
  destruct (i - 1 <=? 0); [reflexivity|].
  apply bind_ext_at. intros u' Hs. apply IH.
  exact (finishes_bind _ _ _ _ H2 Hs).
Qed.

Lemma RUnlock_loop_more_fuel key fuel :
  forall i st,
    finishes (RUnlock_loop fuel i key st) ->
    RUnlock_loop (S fuel) i key st = RUnlock_loop fuel i key st.
Proof.
  induction fuel as [|fuel IH]; intros i st H; [destruct H; reflexivity|].
  rewrite (RUnlock_loop_step (S fuel)), (RUnlock_loop_step fuel).
  rewrite RUnlock_loop_step in H.
  apply bind_ext_at. intros [res err] Ha.
  pose proof (finishes_bind _ _ _ _ H Ha) as H1. cbn beta iota in H1.
  destruct (holds res Success); [reflexivity|].
  apply bind_ext_at. intros u Hb.
  pose proof (finishes_bind _ _ _ _ H1 Hb) as H2. cbn beta in H2.
  destruct (i - 1 <=? 0); [reflexivity|].
  apply bind_ext_at. intros u' Hs. apply IH.
  exact (finishes_bind _ _ _ _ H2 Hs).
Qed.

(** Once a loop ends within [fuel], any larger fuel gives the same run. *)
Lemma fuel_irrelevant (loop : nat -> M unit) st :
  (forall fuel, finishes (loop fuel st) -> loop (S fuel) st = loop fuel st) ->
  forall fuel fuel',
    finishes (loop fuel st) -> (fuel <= fuel')%nat ->
    loop fuel' st = loop fuel st.
Proof.
  intros Hstep fuel fuel' Hf Hle. induction Hle as [|n Hle IH]; [reflexivity|].
  rewrite Hstep; [exact IH|]. rewrite IH. exact Hf.
Qed.

(** ** Runs spelled out *)

Lemma bind_run {A B} (m : M A) (k : A -> M B) st a st' l :
  m st = {| out := Done a; final := st'; log := l |} ->
  bind m k st =
  {| out := out (k a st'); final := final (k a st');
     log := (l ++ log (k a st'))%list |}.
Proof. intros H. unfold bind. rewrite H. reflexivity. Qed.

Lemma sendLock_decoded sha key uniqID lockCmd expireTime st c s e res :
  is_command lockCmd = true ->
  Redis st = Some c ->
  EvalSha c sha [key; lockCmd] (request_args lockCmd uniqID expireTime) (env st)
    = (inl (ReplyString s), e) ->
  Unmarshal s = inl res ->
  sendLock sha key uniqID lockCmd expireTime st =
  {| out := Done (Some res, None); final := set_env e st;
     log := [EvEvalSha c sha [key; lockCmd]
               (request_args lockCmd uniqID expireTime) (inl (ReplyString s))] |}.
Proof.
  intros Hc HR He Hu. rewrite sendLock_run by exact Hc. rewrite HR. cbv zeta.
  rewrite He. cbn [fst snd interpret]. rewrite Hu. reflexivity.
Qed.

Lemma sendLock_failed sha key uniqID lockCmd expireTime st c err e :
  is_command lockCmd = true ->
  Redis st = Some c ->
  EvalSha c sha [key; lockCmd] (request_args lockCmd uniqID expireTime) (env st)
    = (inr err, e) ->
  sendLock sha key uniqID lockCmd expireTime st =
  {| out := Done (None, Some err); final := set_env e st;
     log := [EvEvalSha c sha [key; lockCmd]
               (request_args lockCmd uniqID expireTime) (inr err)] |}.
Proof.
  intros Hc HR He. rewrite sendLock_run by exact Hc. rewrite HR. cbv zeta.
  rewrite He. reflexivity.
Qed.

Lemma backoff_at c o h e r e' :
  Rand 10 20 e = (r, e') ->
  backoff {| Redis := c; opts := o; shaHashID := h; env := e |} =
  {| out := Done tt;
     final := {| Redis := c; opts := o; shaHashID := h; env := e' |};
     log := [EvSleep (wrap64 (r * Millisecond))] |}.
Proof. intros H. rewrite backoff_run. cbn [env]. cbv zeta. rewrite H. reflexivity. Qed.

End Further.

(** * Further properties, stated *)
Section Extras.

Context {W : Store}.

(** X1.  When [sendLock] returns, exactly one of its two results is
    non-nil, and the package variables are as before the call: an attempt
    changes nothing on the client side. *)
Theorem sendLock_result_shape sha key uniqID lockCmd expireTime
  (st : state) res err :
  out (sendLock sha key uniqID lockCmd expireTime st) = Done (res, err) ->
  ((exists r, res = Some r /\ err = None) \/
   (res = None /\ exists x, err = Some x))
  /\ Redis (final (sendLock sha key uniqID lockCmd expireTime st)) = Redis st
  /\ opts (final (sendLock sha key uniqID lockCmd expireTime st)) = opts st
  /\ shaHashID (final (sendLock sha key uniqID lockCmd expireTime st))
     = shaHashID st.
Proof.
  intros Ha. destruct (is_command lockCmd) eqn:Hcmd.
  - pose proof (sendLock_returns sha key uniqID lockCmd expireTime st Hcmd) as H.
    rewrite Ha in H. destruct H as (ev & _ & _ & _ & _ & Hshape).
    split; [exact Hshape|].
    rewrite sendLock_run by exact Hcmd.
    destruct (Redis st) eqn:HR; cbn; rewrite ?HR; repeat split.
  - rewrite sendLock_unknown in Ha by exact Hcmd. discriminate.
Qed.

(** X2.  The [switch] of [sendLock] has no default: for a command other
    than the four known ones nothing is sent, both results stay nil, and
    the type assertion on the nil reply panics. *)
Theorem sendLock_unknown_command sha key uniqID lockCmd expireTime
  (st : state) :
  (lockCmd =? LockCmd)%string = false ->
  (lockCmd =? UnlockCmd)%string = false ->
  (lockCmd =? RLockCmd)%string = false ->
  (lockCmd =? RUnlockCmd)%string = false ->
  sendLock sha key uniqID lockCmd expireTime st =
  {| out := Panicked not_a_string; final := st; log := [] |}.
Proof.
  intros HL HU HR HRU. apply sendLock_unknown.
  unfold is_command. rewrite HL, HU, HR, HRU. reflexivity.
Qed.

(** X3.  A reply that is not a string (nil, an integer) is not an error
    for go-redis, and the type assertion in [sendLock] panics on it: each
    of the four operations dies with a run-time error on such a reply,
    also the release operations, after that one request and without
    sleeping. *)
Theorem reply_must_be_a_string fuel key uniqID expireTime (st : state) c :
  Redis st = Some c ->
  ((forall s,
      fst (EvalSha c (shaHashID st) [key; LockCmd]
             [uniqID; Itoa (if expireTime <=? 0 then 5 else expireTime)]
             (env st)) <> inl (ReplyString s)) ->
   (forall x,
      fst (EvalSha c (shaHashID st) [key; LockCmd]
             [uniqID; Itoa (if expireTime <=? 0 then 5 else expireTime)]
             (env st)) <> inr x) ->
   out (Lock (S fuel) key uniqID expireTime st) = Panicked not_a_string /\
   attempts (log (Lock (S fuel) key uniqID expireTime st)) = 1%nat /\
   sleeps (log (Lock (S fuel) key uniqID expireTime st)) = 0%nat)
  /\
  ((forall s,
      fst (EvalSha c (shaHashID st) [key; UnlockCmd] [uniqID] (env st))
      <> inl (ReplyString s)) ->
   (forall x,
      fst (EvalSha c (shaHashID st) [key; UnlockCmd] [uniqID] (env st))
      <> inr x) ->
   out (Unlock (S fuel) key uniqID st) = Panicked not_a_string /\
   attempts (log (Unlock (S fuel) key uniqID st)) = 1%nat /\
   sleeps (log (Unlock (S fuel) key uniqID st)) = 0%nat)
  /\
  ((forall s,
      fst (EvalSha c (shaHashID st) [key; RLockCmd] [EmptyString] (env st))
      <> inl (ReplyString s)) ->
   (forall x,
      fst (EvalSha c (shaHashID st) [key; RLockCmd] [EmptyString] (env st))
      <> inr x) ->
   out (RLock (S fuel) key st) = Panicked not_a_string /\
   attempts (log (RLock (S fuel) key st)) = 1%nat /\
   sleeps (log (RLock (S fuel) key st)) = 0%nat)
  /\
  (key <> EmptyString ->
   (forall s,
      fst (EvalSha c (shaHashID st) [key; RUnlockCmd] [EmptyString] (env st))
      <> inl (ReplyString s)) ->
   (forall x,
      fst (EvalSha c (shaHashID st) [key; RUnlockCmd] [EmptyString] (env st))
      <> inr x) ->
   out (RUnlock (S fuel) key st) = Panicked not_a_string /\
   attempts (log (RUnlock (S fuel) key st)) = 1%nat /\
   sleeps (log (RUnlock (S fuel) key st)) = 0%nat).
Proof.
  intros Hc.
  assert (Hsend : forall key' uniqID' lockCmd e,
            is_command lockCmd = true ->
            (forall s,
               fst (EvalSha c (shaHashID st) [key'; lockCmd]
                      (request_args lockCmd uniqID' e) (env st))
               <> inl (ReplyString s)) ->
            (forall x,
               fst (EvalSha c (shaHashID st) [key'; lockCmd]
                      (request_args lockCmd uniqID' e) (env st))
               <> inr x) ->
            out (sendLock (shaHashID st) key' uniqID' lockCmd e st)
              = Panicked not_a_string /\
            attempts (log (sendLock (shaHashID st) key' uniqID' lockCmd e st))
              = 1%nat /\
            sleeps (log (sendLock (shaHashID st) key' uniqID' lockCmd e st))
              = 0%nat).
  { intros key' uniqID' lockCmd e Hcmd Hs Hx.
    rewrite sendLock_run by exact Hcmd. rewrite Hc. cbv zeta. cbn [out log].
    destruct (fst (EvalSha c (shaHashID st) [key'; lockCmd]
                     (request_args lockCmd uniqID' e) (env st)))
      as [[ |s|n]|x]; try (repeat split; reflexivity).
    - destruct (Hs s eq_refl).
    - destruct (Hx x eq_refl). }
  assert (Hlift : forall (m : M (option responseLock * option error))
                         (k : option responseLock * option error -> M unit),
            out (m st) = Panicked not_a_string /\
            attempts (log (m st)) = 1%nat /\ sleeps (log (m st)) = 0%nat ->
            out (bind m k st) = Panicked not_a_string /\
            attempts (log (bind m k st)) = 1%nat /\
            sleeps (log (bind m k st)) = 0%nat).
  { intros m k (Ho & Ha & Hs). rewrite (bind_panicked _ _ _ _ Ho).
    repeat split; assumption. }
  split; [|split; [|split]].
  - intros Hs Hx. unfold Lock.
    replace (len key <? 0) with false
      by (symmetry; apply Z.ltb_ge; unfold len; lia).
    rewrite Lock_loop_step. apply Hlift.
    apply (Hsend key uniqID LockCmd _ eq_refl Hs Hx).
  - intros Hs Hx. unfold Unlock. rewrite Unlock_loop_step. apply Hlift.
    apply (Hsend key uniqID UnlockCmd 0 eq_refl Hs Hx).
  - intros Hs Hx. unfold RLock. rewrite RLock_loop_step. apply Hlift.
    apply (Hsend key EmptyString RLockCmd 0 eq_refl Hs Hx).
  - intros Hkey Hs Hx. unfold RUnlock.
    replace (len key <=? 0) with false.
    + rewrite RUnlock_loop_step. apply Hlift.
      apply (Hsend key EmptyString RUnlockCmd 0 eq_refl Hs Hx).
    + symmetry. apply Z.leb_gt. destruct key; [contradiction|].
      unfold len. cbn [String.length]. lia.
Qed.

(** X4.  What the release and read operations put on the wire: every
    request of [Unlock] has the keys [key, UNLOCK] and the holder as its
    only argument; every request of [RLock] and [RUnlock] has the keys
    [key, RLOCK] resp. [key, RUNLOCK] and the empty string as its only
    argument.  [RLock] has no guard on its key: whatever the key, its first
    action with a client in place is the request. *)
Theorem request_shapes fuel key uniqID (st : state) :
  Forall (asks [key; UnlockCmd] [uniqID]) (log (Unlock fuel key uniqID st))
  /\ Forall (asks [key; RLockCmd] [EmptyString]) (log (RLock fuel key st))
  /\ Forall (asks [key; RUnlockCmd] [EmptyString]) (log (RUnlock fuel key st))
  /\ match Redis st with
     | Some c =>
         exists r rest,
           log (RLock (S fuel) key st) =
           EvEvalSha c (shaHashID st) [key; RLockCmd] [EmptyString] r :: rest
     | None =>
         RLock (S fuel) key st =
         {| out := Panicked nil_dereference; final := st; log := [] |}
     end.
Proof.
  split; [apply (Unlock_loop_within fuel 10 key uniqID st)|].
  split; [apply (RLock_loop_within fuel key st)|].
  split.
  - unfold RUnlock. destruct (len key <=? 0); [constructor|].
    apply (RUnlock_loop_within fuel 10 key st).
  - unfold RLock. rewrite RLock_loop_step.
    destruct (Redis st) as [c|] eqn:Hc.
    + match goal with
      | |- context [log (bind ?m ?k st)] =>
          destruct (bind_log_prefix m k st) as [rest Hrest]
      end.
      rewrite Hrest.
      destruct (sendLock_first (shaHashID st) key EmptyString RLockCmd 0
                  st c eq_refl Hc) as [r Hr].
      rewrite Hr. exists r, rest. reflexivity.
    + unfold bind at 1. rewrite sendLock_run by reflexivity. rewrite Hc.
      reflexivity.
Qed.

(** X5.  The handle is read before every attempt and replaced by every
    successful script load: in a run of any of the four operations each
    request carries the handle returned by the latest successful script
    load of that run, or the handle held at the start when there was none
    yet, and the handle left behind is that of the latest successful load. *)
Theorem requests_carry_the_handle_in_force fuel key uniqID expireTime
  (st : state) :
  tracks_handle st (log (Lock fuel key uniqID expireTime st))
                   (final (Lock fuel key uniqID expireTime st))
  /\ tracks_handle st (log (Unlock fuel key uniqID st))
                      (final (Unlock fuel key uniqID st))
  /\ tracks_handle st (log (RLock fuel key st)) (final (RLock fuel key st))
  /\ tracks_handle st (log (RUnlock fuel key st))
                      (final (RUnlock fuel key st)).
Proof.
  repeat split.
  1,2: apply (keeps_Lock tracks_handle tracks_handle_nil tracks_handle_app
                tracks_handle_backoff tracks_handle_handleError
                tracks_handle_sendLock fuel key uniqID expireTime st).
  1,2: apply (keeps_Unlock_loop tracks_handle tracks_handle_nil
                tracks_handle_app tracks_handle_backoff
                tracks_handle_handleError tracks_handle_sendLock
                fuel 10 key uniqID st).
  1,2: apply (keeps_RLock_loop tracks_handle tracks_handle_nil
                tracks_handle_app tracks_handle_backoff
                tracks_handle_handleError tracks_handle_sendLock
                fuel key st).
  1,2: apply (keeps_RUnlock tracks_handle tracks_handle_nil
                tracks_handle_app tracks_handle_backoff
                tracks_handle_handleError tracks_handle_sendLock
                fuel key st).
Qed.

(** X6.  The four operations never change the retained options and never
    leave the process without a client when it had one.  When the client
    in place is the one the retained options describe, as after a
    successful [DoInit], it is still in place afterwards and every ping,
    script load and request of the run went through it: recovery
    reconnects to the same configuration. *)
Theorem operations_keep_the_connection fuel key uniqID expireTime
  (st : state) :
  keeps_connection st (log (Lock fuel key uniqID expireTime st))
                      (final (Lock fuel key uniqID expireTime st))
  /\ keeps_connection st (log (Unlock fuel key uniqID st))
                         (final (Unlock fuel key uniqID st))
  /\ keeps_connection st (log (RLock fuel key st))
                         (final (RLock fuel key st))
  /\ keeps_connection st (log (RUnlock fuel key st))
                         (final (RUnlock fuel key st)).
Proof.
  split; [|split; [|split]].
  - apply (keeps_Lock keeps_connection keeps_connection_nil
             keeps_connection_app keeps_connection_backoff
             keeps_connection_handleError keeps_connection_sendLock
             fuel key uniqID expireTime st).
  - apply (keeps_Unlock_loop keeps_connection keeps_connection_nil
             keeps_connection_app keeps_connection_backoff
             keeps_connection_handleError keeps_connection_sendLock
             fuel 10 key uniqID st).
  - apply (keeps_RLock_loop keeps_connection keeps_connection_nil
             keeps_connection_app keeps_connection_backoff
             keeps_connection_handleError keeps_connection_sendLock
             fuel key st).
  - apply (keeps_RUnlock keeps_connection keeps_connection_nil
             keeps_connection_app keeps_connection_backoff
             keeps_connection_handleError keeps_connection_sendLock
             fuel key st).
Qed.

(** X7.  [Lock] ends on the server's word.  When it returns, the last
    thing it did was an attempt whose decoded response has the succeeded
    flag and no error message.  When it panics with a message, the last
    thing it did was an attempt whose decoded response carries exactly
    that message: the usage panic of its guard never fires. *)
Theorem Lock_ends_on_the_servers_word fuel key uniqID expireTime
  (st : state) :
  (out (Lock fuel key uniqID expireTime st) = Done tt ->
   ends_with granted_response (log (Lock fuel key uniqID expireTime st)))
  /\ (forall m,
        out (Lock fuel key uniqID expireTime st) = Panicked (PanicString m) ->
        ends_with (error_response m) (log (Lock fuel key uniqID expireTime st))).
Proof.
  unfold Lock. rewrite len_not_negative.
  pose proof (Lock_loop_profile fuel key uniqID
                (if expireTime <=? 0 then 5 else expireTime) st) as H.
  unfold acquire_profile in H.
  split; [intros Hd|intros m Hd]; rewrite Hd in H; tauto.
Qed.

(** X8.  When [RLock] returns, the last thing it did was an attempt whose
    decoded response has the succeeded flag. *)
Theorem RLock_returns_after_a_grant fuel key (st : state) :
  out (RLock fuel key st) = Done tt ->
  ends_with flagged_response (log (RLock fuel key st)).
Proof.
  intros Hd. pose proof (RLock_loop_profile fuel key st) as H.
  unfold acquire_profile, RLock in *. rewrite Hd in H. tauto.
Qed.

(** X9.  How the release operations end.  When [Unlock] or [RUnlock]
    returns, either its last attempt came back with the succeeded flag or
    it has made all ten attempts.  When [Unlock] panics with a message, its
    last attempt decoded to a response without the succeeded flag that
    carries exactly that message. *)
Theorem release_exits fuel key uniqID (st : state) :
  (out (Unlock fuel key uniqID st) = Done tt ->
   ends_with flagged_response (log (Unlock fuel key uniqID st)) \/
   attempts (log (Unlock fuel key uniqID st)) = 10%nat)
  /\ (forall m,
        out (Unlock fuel key uniqID st) = Panicked (PanicString m) ->
        ends_with (refusal_response m) (log (Unlock fuel key uniqID st)))
  /\ (out (RUnlock fuel key st) = Done tt ->
      ends_with flagged_response (log (RUnlock fuel key st)) \/
      attempts (log (RUnlock fuel key st)) = 10%nat).
Proof.
  pose proof (Unlock_loop_exit fuel 10 key uniqID st ltac:(lia)) as HU.
  unfold release_exit, Unlock in *.
  split; [intros Hd; rewrite Hd in HU; exact HU|].
  split; [intros m Hd; rewrite Hd in HU; exact HU|].
  unfold RUnlock. destruct (len key <=? 0); [discriminate|].
  pose proof (RUnlock_loop_exit fuel 10 key st ltac:(lia)) as HR.
  unfold release_exit in HR. intros Hd. rewrite Hd in HR. exact HR.
Qed.

(** X10.  The acquire operations do not give up and sleep once between
    two attempts.  A run of [Lock] or [RLock] that used up the [fuel]
    iterations it was given made [fuel] attempts, each followed by a sleep;
    a run that returned slept one time less than it attempted. *)
Theorem acquire_retries_without_bound fuel key uniqID expireTime
  (st : state) :
  (out (Lock fuel key uniqID expireTime st) = OutOfFuel ->
   attempts (log (Lock fuel key uniqID expireTime st)) = fuel /\
   sleeps (log (Lock fuel key uniqID expireTime st)) = fuel)
  /\ (out (Lock fuel key uniqID expireTime st) = Done tt ->
      (sleeps (log (Lock fuel key uniqID expireTime st)) + 1
       = attempts (log (Lock fuel key uniqID expireTime st)))%nat)
  /\ (out (RLock fuel key st) = OutOfFuel ->
      attempts (log (RLock fuel key st)) = fuel /\
      sleeps (log (RLock fuel key st)) = fuel)
  /\ (out (RLock fuel key st) = Done tt ->
      (sleeps (log (RLock fuel key st)) + 1
       = attempts (log (RLock fuel key st)))%nat).
Proof.
  pose proof (Lock_loop_profile fuel key uniqID
                (if expireTime <=? 0 then 5 else expireTime) st) as HL.
  pose proof (RLock_loop_profile fuel key st) as HR.
  unfold Lock, RLock. rewrite len_not_negative.
  unfold acquire_profile in *.
  split; [intros Hd; rewrite Hd in HL; exact HL|].
  split; [intros Hd; rewrite Hd in HL; tauto|].
  split; [intros Hd; rewrite Hd in HR; exact HR|].
  intros Hd; rewrite Hd in HR; tauto.
Qed.

(** X11.  After an [Init] that returned, the client built from the given
    options, those options and the handle the script load returned are in
    place, and the first thing each operation does is send its request
    through that client under that handle. *)
Theorem Init_prepares_the_operations (o : optObj) (st : state) :
  out (Init o st) = Done tt ->
  exists c hashID,
    dial o = Some c /\
    Redis (final (Init o st)) = Some c /\
    opts (final (Init o st)) = o /\
    shaHashID (final (Init o st)) = hashID /\
    In (EvScriptLoad c ScriptContent (inl hashID)) (log (Init o st)) /\
    forall fuel key uniqID expireTime,
      (exists r rest,
         log (Lock (S fuel) key uniqID expireTime (final (Init o st))) =
         EvEvalSha c hashID [key; LockCmd]
           [uniqID; Itoa (if expireTime <=? 0 then 5 else expireTime)] r
         :: rest)
      /\ (exists r rest,
            log (Unlock (S fuel) key uniqID (final (Init o st))) =
            EvEvalSha c hashID [key; UnlockCmd] [uniqID] r :: rest)
      /\ (exists r rest,
            log (RLock (S fuel) key (final (Init o st))) =
            EvEvalSha c hashID [key; RLockCmd] [EmptyString] r :: rest)
      /\ (key <> EmptyString ->
          exists r rest,
            log (RUnlock (S fuel) key (final (Init o st))) =
            EvEvalSha c hashID [key; RUnlockCmd] [EmptyString] r :: rest).
Proof.
  intros Hd.
  assert (HInit : Init o st =
          {| out := match out (DoInit o st) with
                    | Done None => Done tt
                    | Done (Some _) => Panicked (PanicString "redis client init ")
                    | Panicked p => Panicked p
                    | OutOfFuel => OutOfFuel
                    end;
             final := final (DoInit o st); log := log (DoInit o st) |}).
  { unfold Init, bind. destruct (out (DoInit o st)) as [[e|]|p|];
      cbn [ret panic out final log]; rewrite ?app_nil_r; reflexivity. }
  rewrite HInit in Hd |- *. cbn [out final log] in *. revert Hd.
  rewrite DoInit_run. destruct (dial o) as [c|]; [|discriminate].
  cbv zeta. destruct (fst (Ping c (env st))); [discriminate|].
  destruct (fst (ScriptLoad c ScriptContent (snd (Ping c (env st)))))
    as [h|x]; [|discriminate].
  intros _. cbn [out final log]. exists c, h.
  repeat (split; [reflexivity|]).
  split; [right; left; reflexivity|].
  intros fuel key uniqID expireTime.
  match goal with
  | |- context [Lock _ _ _ _ ?s] => set (st1 := s)
  end.
  assert (Hc : Redis st1 = Some c) by reflexivity.
  assert (Hh : shaHashID st1 = h) by reflexivity.
  clearbody st1.
  split; [|split; [|split]].
  - unfold Lock. rewrite len_not_negative, Lock_loop_step.
    destruct (sendLock_first (shaHashID st1) key uniqID LockCmd
                (if expireTime <=? 0 then 5 else expireTime) st1 c eq_refl Hc)
      as [r Hr].
    match goal with
    | |- context [log (bind ?m ?k st1)] =>
        destruct (first_request m k st1 _ Hr) as [rest Hrest]
    end.
    exists r, rest. rewrite Hrest, Hh. reflexivity.
  - unfold Unlock. rewrite Unlock_loop_step.
    destruct (sendLock_first (shaHashID st1) key uniqID UnlockCmd 0 st1 c
                eq_refl Hc) as [r Hr].
    match goal with
    | |- context [log (bind ?m ?k st1)] =>
        destruct (first_request m k st1 _ Hr) as [rest Hrest]
    end.
    exists r, rest. rewrite Hrest, Hh. reflexivity.
  - unfold RLock. rewrite RLock_loop_step.
    destruct (sendLock_first (shaHashID st1) key EmptyString RLockCmd 0 st1 c
                eq_refl Hc) as [r Hr].
    match goal with
    | |- context [log (bind ?m ?k st1)] =>
        destruct (first_request m k st1 _ Hr) as [rest Hrest]
    end.
    exists r, rest. rewrite Hrest, Hh. reflexivity.
  - intros Hkey. unfold RUnlock. rewrite (len_positive key Hkey).
    rewrite RUnlock_loop_step.
    destruct (sendLock_first (shaHashID st1) key EmptyString RUnlockCmd 0 st1 c
                eq_refl Hc) as [r Hr].
    match goal with
    | |- context [log (bind ?m ?k st1)] =>
        destruct (first_request m k st1 _ Hr) as [rest Hrest]
    end.
    exists r, rest. rewrite Hrest, Hh. reflexivity.
Qed.

(** X12.  The pause between attempts is the number [tool.Rand(10, 20)]
    yields, taken as milliseconds: when that number lies between 10 and 20
    the multiplication does not wrap and the sleep lasts between 10 and 20
    milliseconds. *)
Theorem sleep_lasts_10_to_20_ms (st : state) :
  10 <= fst (Rand 10 20 (env st)) <= 20 ->
  exists d,
    out (getRandomSleepTime st) = Done d /\
    d = fst (Rand 10 20 (env st)) * Millisecond /\
    10 * Millisecond <= d <= 20 * Millisecond /\
    log (backoff st) = [EvSleep d].
Proof.
  intros Hr. rewrite backoff_run. cbv zeta. cbn [log].
  unfold getRandomSleepTime, bind, with_env, ret.
  destruct (Rand 10 20 (env st)) as [r e']. cbn [fst out final log] in *.
  assert (Hw : wrap64 (r * Millisecond) = r * Millisecond).
  { unfold wrap64, Millisecond.
    replace (2 ^ 63) with 9223372036854775808 by reflexivity.
    replace (2 ^ 64) with 18446744073709551616 by reflexivity.
    rewrite Z.mod_small by lia. lia. }
  exists (r * Millisecond). rewrite Hw. unfold Millisecond.
  repeat split; lia.
Qed.

(** X13.  [DoInit] assigns the new client before it pings.  When the ping
    fails, [DoInit] returns the ping's error and the process is left with
    the new client, the old retained options and the old handle: the next
    operation sends its request through the client that just failed the
    ping, under the old handle. *)
Theorem DoInit_replaces_the_client_before_the_ping (o : optObj)
  (st : state) c err :
  dial o = Some c ->
  fst (Ping c (env st)) = Some err ->
  out (DoInit o st) = Done (Some err) /\
  Redis (final (DoInit o st)) = Some c /\
  opts (final (DoInit o st)) = opts st /\
  shaHashID (final (DoInit o st)) = shaHashID st /\
  forall fuel key,
    exists r rest,
      log (RLock (S fuel) key (final (DoInit o st))) =
      EvEvalSha c (shaHashID st) [key; RLockCmd] [EmptyString] r :: rest.
Proof.
  intros Hd Hp. rewrite DoInit_run, Hd. cbv zeta. rewrite Hp.
  cbn [out final]. repeat (split; [reflexivity|]).
  intros fuel key.
  match goal with
  | |- context [RLock _ _ ?s] => set (st1 := s)
  end.
  assert (Hc : Redis st1 = Some c) by reflexivity.
  assert (Hh : shaHashID st1 = shaHashID st) by reflexivity.
  clearbody st1.
  unfold RLock. rewrite RLock_loop_step.
  destruct (sendLock_first (shaHashID st1) key EmptyString RLockCmd 0 st1 c
              eq_refl Hc) as [r Hr].
  match goal with
  | |- context [log (bind ?m ?k st1)] =>
      destruct (first_request m k st1 _ Hr) as [rest Hrest]
  end.
  exists r, rest. rewrite Hrest, Hh. reflexivity.
Qed.

(** X14.  With a client in place no operation dereferences a nil client,
    neither at an attempt nor while recovering: the only run-time error an
    operation can die of is the failed type assertion on the reply. *)
Theorem only_the_type_assertion_can_crash fuel key uniqID expireTime
  (st : state) :
  Redis st <> None ->
  (forall w, out (Lock fuel key uniqID expireTime st)
               = Panicked (RuntimeError w) ->
             RuntimeError w = not_a_string)
  /\ (forall w, out (Unlock fuel key uniqID st) = Panicked (RuntimeError w) ->
                RuntimeError w = not_a_string)
  /\ (forall w, out (RLock fuel key st) = Panicked (RuntimeError w) ->
                RuntimeError w = not_a_string)
  /\ (forall w, out (RUnlock fuel key st) = Panicked (RuntimeError w) ->
                RuntimeError w = not_a_string).
Proof.
  intros H. split; [|split; [|split]].
  - unfold Lock. rewrite len_not_negative.
    apply (alive_Lock_loop fuel key uniqID _ st H).
  - apply (alive_Unlock_loop fuel 10 key uniqID st H).
  - apply (alive_RLock_loop fuel key st H).
  - unfold RUnlock. destruct (len key <=? 0); [intros w Hw; discriminate|].
    apply (alive_RUnlock_loop fuel 10 key st H).
Qed.

(** X15.  The release operations need ten iterations at most: given any
    more they run exactly as with ten. *)
Theorem release_runs_within_ten_iterations fuel key uniqID (st : state) :
  (10 <= fuel)%nat ->
  Unlock fuel key uniqID st = Unlock 10 key uniqID st
  /\ RUnlock fuel key st = RUnlock 10 key st.
Proof.
  intros Hf. split.
  - unfold Unlock.
    apply (fuel_irrelevant (fun f => Unlock_loop f 10 key uniqID) st);
      [intros f; apply Unlock_loop_more_fuel| |exact Hf].
    destruct (Unlock_loop_bound 10 10 key uniqID st) as (_ & H & _); [lia|].
    apply H. reflexivity.
  - unfold RUnlock. destruct (len key <=? 0); [reflexivity|].
    apply (fuel_irrelevant (fun f => RUnlock_loop f 10 key) st);
      [intros f; apply RUnlock_loop_more_fuel| |exact Hf].
    destruct (RUnlock_loop_bound 10 10 key st) as (_ & H & _); [lia|].
    apply H. reflexivity.
Qed.


(** X17.  [Lock] gets over a lost script.  When the server answers the
    first attempt with the NOSCRIPT error, the script is loaded again
    through the same client, the handle that load returns replaces the old
    one, the call sleeps once and the second attempt goes out under the new
    handle; when that attempt is granted [Lock] returns, and the new
    handle stays in force. *)
Theorem Lock_reloads_a_lost_script fuel key uniqID expireTime (st : state)
  c e1 h e2 r e3 s e4 res :
  Redis st = Some c ->
  EvalSha c (shaHashID st) [key; LockCmd]
    [uniqID; Itoa (if expireTime <=? 0 then 5 else expireTime)] (env st)
    = (inr NoScriptError, e1) ->
  ScriptLoad c ScriptContent e1 = (inl h, e2) ->
  Rand 10 20 e2 = (r, e3) ->
  EvalSha c h [key; LockCmd]
    [uniqID; Itoa (if expireTime <=? 0 then 5 else expireTime)] e3
    = (inl (ReplyString s), e4) ->
  Unmarshal s = inl res -> IsError res = false -> Success res = true ->
  Lock (S (S fuel)) key uniqID expireTime st =
  {| out := Done tt;
     final := {| Redis := Some c; opts := opts st; shaHashID := h; env := e4 |};
     log := [EvEvalSha c (shaHashID st) [key; LockCmd]
               [uniqID; Itoa (if expireTime <=? 0 then 5 else expireTime)]
               (inr NoScriptError);
             EvScriptLoad c ScriptContent (inl h);
             EvSleep (wrap64 (r * Millisecond));
             EvEvalSha c h [key; LockCmd]
               [uniqID; Itoa (if expireTime <=? 0 then 5 else expireTime)]
               (inl (ReplyString s))] |}.
Proof.
  intros HR H1 H2 H3 H4 H5 H6 H7.
  unfold Lock. rewrite len_not_negative.
  set (lease := if expireTime <=? 0 then 5 else expireTime) in *.
  rewrite Lock_loop_step.
  rewrite (bind_run _ _ _ _ _ _
             (sendLock_failed _ key uniqID LockCmd lease st c _ e1 eq_refl HR H1)).
  assert (Hh : handleError (Some NoScriptError) (set_env e1 st) =
               {| out := Done true;
                  final := {| Redis := Some c; opts := opts st; shaHashID := h;
                              env := e2 |};
                  log := [EvScriptLoad c ScriptContent (inl h)] |}).
  { rewrite handleError_run.
    change ((NoScriptError =? EofError)%string) with false.
    change ((NoScriptError =? NoScriptError)%string) with true.
    cbv iota. rewrite LoadLua_run. cbn [set_env Redis opts shaHashID env].
    rewrite HR. cbv zeta. rewrite H2. reflexivity. }
  rewrite (bind_run _ _ _ _ _ _ Hh).
  rewrite (bind_run _ _ _ _ _ _ (backoff_at _ _ _ _ _ _ H3)).
  rewrite Lock_loop_step. cbn [shaHashID].
  rewrite (bind_run _ _ _ _ _ _
             (sendLock_decoded h key uniqID LockCmd lease
                {| Redis := Some c; opts := opts st; shaHashID := h; env := e3 |}
                c s e4 res eq_refl eq_refl H4 H5)).
  cbn [holds]. rewrite H6, H7. reflexivity.
Qed.

(** X18.  [Unlock] reconnects after a dropped connection.  When the first
    attempt fails with EOF, a new client is built from the retained
    options, pinged, and the script is loaded through it; the call sleeps
    once and the second attempt goes through the new client under the
    handle that load returned.  When that attempt comes back with the
    succeeded flag [Unlock] returns, and the new client and handle stay in
    place. *)
Theorem Unlock_reconnects_after_EOF fuel key uniqID (st : state)
  c c' e1 e2 h e3 r e4 s e5 res :
  Redis st = Some c ->
  EvalSha c (shaHashID st) [key; UnlockCmd] [uniqID] (env st)
    = (inr EofError, e1) ->
  dial (opts st) = Some c' ->
  Ping c' e1 = (None, e2) ->
  ScriptLoad c' ScriptContent e2 = (inl h, e3) ->
  Rand 10 20 e3 = (r, e4) ->
  EvalSha c' h [key; UnlockCmd] [uniqID] e4 = (inl (ReplyString s), e5) ->
  Unmarshal s = inl res -> Success res = true ->
  Unlock (S (S fuel)) key uniqID st =
  {| out := Done tt;
     final := {| Redis := Some c'; opts := opts st; shaHashID := h; env := e5 |};
     log := [EvEvalSha c (shaHashID st) [key; UnlockCmd] [uniqID] (inr EofError);
             EvPing c' None;
             EvScriptLoad c' ScriptContent (inl h);
             EvSleep (wrap64 (r * Millisecond));
             EvEvalSha c' h [key; UnlockCmd] [uniqID] (inl (ReplyString s))] |}.
Proof.
  intros HR H1 Hd Hp H2 H3 H4 H5 H6.
  unfold Unlock. rewrite Unlock_loop_step.
  rewrite (bind_run _ _ _ _ _ _
             (sendLock_failed _ key uniqID UnlockCmd 0 st c _ e1 eq_refl HR H1)).
  cbn [holds recover].
  assert (Hh : handleError (Some EofError) (set_env e1 st) =
               {| out := Done true;
                  final := {| Redis := Some c'; opts := opts st; shaHashID := h;
                              env := e3 |};
                  log := [EvPing c' None; EvScriptLoad c' ScriptContent (inl h)] |}).
  { rewrite handleError_run.
    change ((EofError =? EofError)%string) with true.
    cbv iota. rewrite DoInit_run. cbn [set_env Redis opts shaHashID env].
    rewrite Hd. cbv zeta. rewrite Hp. cbn [fst snd]. rewrite H2. reflexivity. }
  assert (Hrec : recover (Some EofError) (set_env e1 st) =
               {| out := Done tt;
                  final := {| Redis := Some c'; opts := opts st; shaHashID := h;
                              env := e3 |};
                  log := [EvPing c' None; EvScriptLoad c' ScriptContent (inl h)] |}).
  { unfold recover. rewrite (bind_run _ _ _ _ _ _ Hh). reflexivity. }
  rewrite (bind_run _ _ _ _ _ _ Hrec).
  change (10 - 1 <=? 0) with false. cbv iota.
  cbn [ret out final log app].
  rewrite (bind_run _ _ _ _ _ _ (backoff_at _ _ _ _ _ _ H3)).
  rewrite Unlock_loop_step. cbn [shaHashID].
  rewrite (bind_run _ _ _ _ _ _
             (sendLock_decoded h key uniqID UnlockCmd 0
                {| Redis := Some c'; opts := opts st; shaHashID := h; env := e4 |}
                c' s e5 res eq_refl eq_refl H4 H5)).
  cbn [holds]. rewrite H6. reflexivity.
Qed.

End Extras.

(** * The further properties on the scripted store *)
Module Scenes.

(** A ready process whose next pause draws 17. *)
Definition pausing : @state Scripted.store :=
  Scripted.ready {| Scripted.pings := []; Scripted.loads := [];
                    Scripted.evals := []; Scripted.rands := [17] |}.

(** A server that has lost the script: the first request is answered with
    NOSCRIPT, the reload yields the handle [sha-2], the pause draws 15 and
    the second request is granted. *)
Definition losing_the_script : @state Scripted.store :=
  Scripted.ready {| Scripted.pings := [];
                    Scripted.loads := [inl "sha-2"];
                    Scripted.evals := [inr NoScriptError;
                                       Scripted.says Scripted.granted];
                    Scripted.rands := [15] |}.

(** A connection that drops: the first request fails with EOF, the new
    client answers the ping, the load yields the handle [sha-2], the pause
    draws 15 and the second request is granted.  The process retains the
    options of [single] and talks through a client for [other_node], as it
    does after a re-initialisation whose ping failed. *)
Definition dropping_the_connection : @state Scripted.store :=
  @Build_state Scripted.store (Some (NewClient Scripted.other_node))
    (OptionsPtr Scripted.single) "sha-0"
    {| Scripted.pings := [None];
       Scripted.loads := [inl "sha-2"];
       Scripted.evals := [inr EofError; Scripted.says Scripted.granted];
       Scripted.rands := [15] |}.

End Scenes.

(** X1, instance: a granted request returns the response and no error, and
    leaves client, options and handle alone. *)
Lemma a_grant_has_the_result_shape :
  out (sendLock (W := Scripted.store) "sha-0" "k" "w1" LockCmd 5
         Scripted.granting) = Done (Some Scripted.granted, None)
  /\ Redis (final (sendLock (W := Scripted.store) "sha-0" "k" "w1" LockCmd 5
                     Scripted.granting)) = Some (NewClient Scripted.single)
  /\ opts (final (sendLock (W := Scripted.store) "sha-0" "k" "w1" LockCmd 5
                    Scripted.granting)) = OptionsPtr Scripted.single
  /\ shaHashID (final (sendLock (W := Scripted.store) "sha-0" "k" "w1" LockCmd 5
                         Scripted.granting)) = "sha-0".
Proof.
  split; [reflexivity|].
  destruct (sendLock_result_shape (W := Scripted.store) "sha-0" "k" "w1"
              LockCmd 5 Scripted.granting (Some Scripted.granted) None eq_refl)
    as (_ & HR & Ho & Hh).
  repeat split; assumption.
Defined.

(** X2, instance: the command PEEK is none of the four. *)
Lemma PEEK_is_not_sent :
  sendLock (W := Scripted.store) "sha-0" "k" "w1" "PEEK" 0 Scripted.granting
  = {| out := Panicked not_a_string; final := Scripted.granting; log := [] |}.
Proof.
  apply (sendLock_unknown_command (W := Scripted.store)); reflexivity.
Defined.

(** X3, instance: the next reply is the integer 1. *)
Lemma an_integer_reply_crashes_every_operation :
  out (Lock (W := Scripted.store) 1 "k" "w1" 5 Scripted.replying_integer)
    = Panicked not_a_string
  /\ out (Unlock (W := Scripted.store) 1 "k" "w1" Scripted.replying_integer)
       = Panicked not_a_string
  /\ out (RLock (W := Scripted.store) 1 "k" Scripted.replying_integer)
       = Panicked not_a_string
  /\ out (RUnlock (W := Scripted.store) 1 "k" Scripted.replying_integer)
       = Panicked not_a_string.
Proof.
  destruct (reply_must_be_a_string (W := Scripted.store) 0 "k" "w1" 5
              Scripted.replying_integer (NewClient Scripted.single) eq_refl)
    as (HL & HU & HR & HRU).
  split; [|split; [|split]].
  - apply HL; intros x; vm_compute; discriminate.
  - apply HU; intros x; vm_compute; discriminate.
  - apply HR; intros x; vm_compute; discriminate.
  - apply HRU; [discriminate|intros x; vm_compute; discriminate..].
Defined.

(** X8, instance: the first reply is a grant. *)
Lemma RLock_returned_after_a_grant :
  ends_with (flagged_response (W := Scripted.store))
    (log (RLock (W := Scripted.store) 3 "k" Scripted.granting)).
Proof.
  apply (RLock_returns_after_a_grant (W := Scripted.store)). reflexivity.
Defined.

(** X11, instance: [Init] for a single node before anything else. *)
Lemma operations_after_Init :
  exists c hashID,
    Redis (final (Init (W := Scripted.store) (OptionsPtr Scripted.single)
                    (Scripted.fresh (Scripted.replies [])))) = Some c
    /\ shaHashID (final (Init (W := Scripted.store) (OptionsPtr Scripted.single)
                           (Scripted.fresh (Scripted.replies [])))) = hashID
    /\ exists r rest,
         log (RLock (W := Scripted.store) 1 "k"
                (final (Init (W := Scripted.store) (OptionsPtr Scripted.single)
                          (Scripted.fresh (Scripted.replies [])))))
         = EvEvalSha c hashID ["k"; RLockCmd] [EmptyString] r :: rest.
Proof.
  destruct (Init_prepares_the_operations (W := Scripted.store)
              (OptionsPtr Scripted.single)
              (Scripted.fresh (Scripted.replies [])) eq_refl)
    as (c & h & _ & Hc & _ & Hh & _ & Hops).
  exists c, h. split; [exact Hc|]. split; [exact Hh|].
  destruct (Hops 0%nat "k" "w1" 5) as (_ & _ & HR & _). exact HR.
Defined.

(** X12, instance: the draw is 17. *)
Lemma a_pause_of_17_ms :
  log (backoff (W := Scripted.store) Scenes.pausing) = [EvSleep 17000000].
Proof.
  destruct (sleep_lasts_10_to_20_ms (W := Scripted.store) Scenes.pausing)
    as (d & _ & Hd & _ & Hl).
  - vm_compute. split; discriminate.
  - rewrite Hl, Hd. reflexivity.
Defined.

(** X13, instance: a re-initialisation for another node whose ping fails. *)
Lemma a_failed_ping_leaves_the_new_client :
  out (DoInit (W := Scripted.store) (OptionsPtr Scripted.other_node)
         Scripted.unreachable) = Done (Some "dial tcp: i/o timeout")
  /\ Redis (final (DoInit (W := Scripted.store) (OptionsPtr Scripted.other_node)
                     Scripted.unreachable))
     = Some (NewClient Scripted.other_node)
  /\ opts (final (DoInit (W := Scripted.store) (OptionsPtr Scripted.other_node)
                    Scripted.unreachable)) = OptionsPtr Scripted.single
  /\ shaHashID (final (DoInit (W := Scripted.store)
                         (OptionsPtr Scripted.other_node)
                         Scripted.unreachable)) = "sha-0".
Proof.
  destruct (DoInit_replaces_the_client_before_the_ping (W := Scripted.store)
              (OptionsPtr Scripted.other_node) Scripted.unreachable
              (NewClient Scripted.other_node) "dial tcp: i/o timeout"
              eq_refl eq_refl)
    as (Ho & Hc & Hopts & Hh & _).
  repeat split; assumption.
Defined.

(** X14, instance: with a client in place, the run-time error [Lock] dies
    of on an integer reply is the failed type assertion. *)
Lemma the_crash_is_the_type_assertion :
  exists w,
    out (Lock (W := Scripted.store) 1 "k" "w1" 5 Scripted.replying_integer)
      = Panicked (RuntimeError w)
    /\ RuntimeError w = not_a_string.
Proof.
  eexists. split; [reflexivity|].
  assert (Hc : Redis Scripted.replying_integer <> None) by discriminate.
  apply (proj1 (only_the_type_assertion_can_crash (W := Scripted.store)
                  1 "k" "w1" 5 Scripted.replying_integer Hc)).
  reflexivity.
Defined.

(** X15, instance: twelve iterations against a store that always reports
    the lock as held. *)
Lemma twelve_iterations_run_as_ten :
  Unlock (W := Scripted.store) 12 "k" "w1" Scripted.always_busy
    = Unlock (W := Scripted.store) 10 "k" "w1" Scripted.always_busy
  /\ RUnlock (W := Scripted.store) 12 "k" Scripted.always_busy
     = RUnlock (W := Scripted.store) 10 "k" Scripted.always_busy.
Proof.
  apply (release_runs_within_ten_iterations (W := Scripted.store)).
  repeat constructor.
Defined.


(** X17, instance: the run of [Lock] against a server that has lost the
    script. *)
Lemma Lock_after_a_lost_script :
  out (Lock (W := Scripted.store) 2 "k" "w1" 30 Scenes.losing_the_script)
    = Done tt
  /\ shaHashID (final (Lock (W := Scripted.store) 2 "k" "w1" 30
                         Scenes.losing_the_script)) = "sha-2"
  /\ log (Lock (W := Scripted.store) 2 "k" "w1" 30 Scenes.losing_the_script)
     = [EvEvalSha (NewClient Scripted.single) "sha-0" ["k"; LockCmd]
          ["w1"; "30"] (inr NoScriptError);
        EvScriptLoad (NewClient Scripted.single)
          (ScriptContent (Store := Scripted.store)) (inl "sha-2");
        EvSleep 15000000;
        EvEvalSha (NewClient Scripted.single) "sha-2" ["k"; LockCmd]
          ["w1"; "30"] (Scripted.says Scripted.granted)].
Proof.
  rewrite (Lock_reloads_a_lost_script (W := Scripted.store) 0 "k" "w1" 30
             Scenes.losing_the_script _ _ _ _ _ _ _ _ _
             eq_refl eq_refl eq_refl eq_refl eq_refl eq_refl eq_refl eq_refl).
  repeat split.
Defined.

(** X18, instance: the run of [Unlock] over a connection that drops. *)
Lemma Unlock_after_EOF :
  out (Unlock (W := Scripted.store) 2 "k" "w1" Scenes.dropping_the_connection)
    = Done tt
  /\ Redis (final (Unlock (W := Scripted.store) 2 "k" "w1"
                     Scenes.dropping_the_connection))
     = Some (NewClient Scripted.single)
  /\ shaHashID (final (Unlock (W := Scripted.store) 2 "k" "w1"
                         Scenes.dropping_the_connection)) = "sha-2"
  /\ attempts (log (Unlock (W := Scripted.store) 2 "k" "w1"
                      Scenes.dropping_the_connection)) = 2%nat.
Proof.
  rewrite (Unlock_reconnects_after_EOF (W := Scripted.store) 0 "k" "w1"
             Scenes.dropping_the_connection _ _ _ _ _ _ _ _ _ _ _
             eq_refl eq_refl eq_refl eq_refl eq_refl eq_refl eq_refl eq_refl
             eq_refl).
  repeat split.
Defined.
